(** * A verification development of make-me-a-btree (src/unnamed/part_000)

    The source is the instance of [mk_bt.h] generated with the default
    macros: [BT_ELEM = int], [BT_FACTOR = 2], [BT_CMP = bt_default_cmp],
    [BT_ELEM_FREE] empty and [BT_ITER_STACK_SIZE = 32].

    Two levels of embedding are used.
    - [Module Mem] models bytes the way [bt_split_node] manipulates them:
      a heap of node records holding the fixed-size arrays [elems[5]] and
      [children[6]], pointers as naturals ([0] is [NULL]), [calloc],
      [memmove] and [memcpy] on those arrays.
    - The rest of the file models the node graph as the strict tree it is
      (every node is owned by exactly one parent): a node is its [n] keys
      [elems[0..n-1]] and its child slots; a leaf has no child
      ([children[0] == NULL]).  Slots past [n] (resp. [n+1]) are not part
      of the node; reads of them in [bt_node_bsearch] return the zero a
      fresh [calloc]ed node holds. *)

From Stdlib Require Import Strings.String Strings.Ascii.
From Stdlib Require Import List Arith Lia ZArith Bool Sorting.Permutation
  Sorting.Sorted.
Import ListNotations.
Open Scope Z_scope.

(** ** Configuration and comparison *)

Definition BT_FACTOR : nat := 2.
Definition BT_ITER_STACK_SIZE : nat := 32.

(** [int] range of the element type. *)
Definition is_int (x : Z) : Prop := - 2 ^ 31 <= x < 2 ^ 31.

(** [bt_default_cmp(a, b)]: [1] if [*a > *b], [-1] if [*a < *b], else [0]. *)
Definition bt_default_cmp (a b : Z) : Z :=
  if a >? b then 1 else if a <? b then -1 else 0.

(** ** [bt_node_bsearch]

    The do-while loop, with the list of indices [mid] the loop reads
    [node->elems] at.  [fuel] bounds the iterations; [right - left]
    decreases at each one, so [n] suffices. *)

Record bs_state := BsState {
  bs_left : nat; bs_right : nat; bs_mid : nat; bs_cmp : Z; bs_reads : list nat
}.

Fixpoint bsearch_loop (fuel : nat) (elems : list Z) (elem : Z)
    (left right : nat) (reads : list nat) : bs_state :=
  let mid := (left + (right - left) / 2)%nat in
  let cmp := bt_default_cmp elem (nth mid elems 0) in
  let left' := if cmp >? 0 then (mid + 1)%nat else left in
  let right' := if cmp >? 0 then right else if cmp <? 0 then mid else right in
  let reads' := reads ++ [mid] in
  match fuel with
  | S fuel' =>
      if negb (cmp =? 0) && (left' <? right')%nat
      then bsearch_loop fuel' elems elem left' right' reads'
      else BsState left' right' mid cmp reads'
  | O => BsState left' right' mid cmp reads'
  end.

(** [left = 0], [right = node->n]. *)
Definition bsearch_run (n : nat) (elems : list Z) (elem : Z) : bs_state :=
  bsearch_loop n elems elem 0 n [].

(** Return value: [mid] on a match, [-(ssize_t)left - 1] otherwise. *)
Definition bt_node_bsearch (n : nat) (elems : list Z) (elem : Z) : Z :=
  let s := bsearch_run n elems elem in
  if bs_cmp s =? 0 then Z.of_nat (bs_mid s) else - Z.of_nat (bs_left s) - 1.

(** [assert(left == right)] on the not-found path. *)
Definition bsearch_assert_ok (n : nat) (elems : list Z) (elem : Z) : bool :=
  let s := bsearch_run n elems elem in
  (bs_cmp s =? 0) || Nat.eqb (bs_left s) (bs_right s).

(** Indices of [node->elems] read. *)
Definition bsearch_reads (n : nat) (elems : list Z) (elem : Z) : list nat :=
  bs_reads (bsearch_run n elems elem).

(** ** Nodes and trees *)

#[warnings="-register-all"]
Inductive bnode : Type :=
  | BNode (elems : list Z) (children : list bnode).

Definition elems (t : bnode) : list Z := let '(BNode es _) := t in es.
Definition children (t : bnode) : list bnode := let '(BNode _ cs) := t in cs.

(** [struct bt]: the root (or [NULL]) and the [size] field. *)
Record bt := mk_bt { root : option bnode; size : nat }.

(** [bt_mk]: [{ .root = NULL }], the other fields zeroed. *)
Definition bt_mk : bt := {| root := None; size := 0 |}.

(** ** [bt_lookup_node] / [bt_lookup]

    The descent loop; the result is the element the returned pointer
    points at ([None] is [NULL]). *)

Fixpoint bt_lookup_node (t : bnode) (elem : Z) : option Z :=
  let '(BNode es cs) := t in
  let idx := bt_node_bsearch (length es) es elem in
  if 0 <=? idx then Some (nth (Z.to_nat idx) es 0)
  else
    (fix go (cs : list bnode) (k : nat) : option Z :=
       match cs, k with
       | [], _ => None
       | c :: _, O => bt_lookup_node c elem
       | _ :: cs', S k' => go cs' k'
       end) cs (Z.to_nat (- idx - 1)).

Definition bt_lookup (t : bt) (elem : Z) : option Z :=
  match root t with
  | None => None
  | Some r => bt_lookup_node r elem
  end.

(** ** [bt_split_node]

    Acting on the parent's child slots: the child at [idx] keeps
    [elems[0..1]] (and, being [n = 2], child slots [0..2]); the new sibling,
    inserted at [idx + 1] (the later slots shift right), receives
    [elems[3..4]] and, when the child is internal ([children[0]] non NULL),
    child slots [3..5].  Returns [elems[2]]. *)

Definition bt_split_node (cs : list bnode) (idx : nat) : Z * list bnode :=
  match nth_error cs idx with
  | Some (BNode ces ccs) =>
      let rchild_children :=
        match ccs with
        | [] => []
        | _ => firstn (BT_FACTOR + 1) (skipn (BT_FACTOR + 1) ccs)
        end in
      let rchild :=
        BNode (firstn BT_FACTOR (skipn (BT_FACTOR + 1) ces)) rchild_children in
      let child := BNode (firstn BT_FACTOR ces) (firstn (BT_FACTOR + 1) ccs) in
      (nth BT_FACTOR ces 0,
       firstn idx cs ++ child :: rchild :: skipn (S idx) cs)
  | None => (0, cs)
  end.

(** ** [bt_node_insert]

    [prev] is the out-parameter: [None] for [NULL], [Some v] for a pointer
    to a cell holding [v]; the result carries the cell's final content. *)

Definition write_prev (prev : option Z) (v : Z) : option Z :=
  match prev with Some _ => Some v | None => None end.

(** [l[k] = v]; a slot past the end is not part of the node, so the
    write leaves the node's contents as they are. *)
Definition upd_nth {A} (l : list A) (k : nat) (v : A) : list A :=
  if (k <? length l)%nat then firstn k l ++ v :: skipn (S k) l else l.

Definition ins_at {A} (l : list A) (k : nat) (v : A) : list A :=
  firstn k l ++ v :: skipn k l.

Fixpoint bt_node_insert (t : bnode) (elem : Z) (prev : option Z)
    : bool * option Z * bnode :=
  let '(BNode es cs) := t in
  let idx := bt_node_bsearch (length es) es elem in
  if 0 <=? idx then
    (true, write_prev prev (nth (Z.to_nat idx) es 0),
     BNode (upd_nth es (Z.to_nat idx) elem) cs)
  else
    let p := Z.to_nat (- idx - 1) in
    match (fix go (cs : list bnode) (k : nat)
             : option (bool * option Z * bnode) :=
             match cs, k with
             | [], _ => None
             | c :: _, O => Some (bt_node_insert c elem prev)
             | _ :: cs', S k' => go cs' k'
             end) cs p with
    | None => (false, prev, BNode (ins_at es p elem) cs)
    | Some (replaced, prev', child) =>
        let cs1 := upd_nth cs p child in
        if (length (elems child) <=? 2 * BT_FACTOR)%nat
        then (replaced, prev', BNode es cs1)
        else
          let '(promoted, cs2) := bt_split_node cs1 p in
          (false, prev', BNode (ins_at es p promoted) cs2)
    end.

(** ** [bt_insert] *)

Definition bt_insert (t : bt) (elem : Z) (prev : option Z)
    : bool * option Z * bt :=
  match root t with
  | None => (false, prev, {| root := Some (BNode [elem] []); size := size t |})
  | Some r =>
      let '(replaced, prev', r') := bt_node_insert r elem prev in
      if (length (elems r') <=? 2 * BT_FACTOR)%nat
      then (replaced, prev', {| root := Some r'; size := size t |})
      else
        let '(promoted, cs) := bt_split_node [r'] 0 in
        (replaced, prev', {| root := Some (BNode [promoted] cs); size := size t |})
  end.

Definition bt_insert_tree (t : bt) (elem : Z) : bt :=
  let '(_, _, t') := bt_insert t elem None in t'.

Definition bt_build (xs : list Z) : bt := fold_left bt_insert_tree xs bt_mk.

(** ** The in-order DFS iterator

    [struct bt_iter_dfs] is the frames [stack[0..top-1]]; the list holds
    them top first, so [top] is its length.  The frame's node pointer is
    [None] for [NULL]. *)

Record bt_iter_frame := Frame { fr_i : nat; fr_node : option bnode }.

Definition bt_iter_dfs := list bt_iter_frame.

Definition bt_iter_dfs_mk (t : bt) : bt_iter_dfs :=
  [ {| fr_i := 0; fr_node := root t |} ].

(** One iteration of the [while (true)] loop of [bt_iter_dfs_next], on the
    loop state ([visited_child], stack).  [SFault]: the push writes
    [stack[32]], past the array, or [top] is [0]. *)

Inductive iter_step_result :=
  | SContinue (visited : bool) (st : bt_iter_dfs)
  | SYield (x : Z) (st : bt_iter_dfs)
  | SNone (st : bt_iter_dfs)
  | SFault.

Definition iter_step (visited : bool) (st : bt_iter_dfs) : iter_step_result :=
  match st with
  | [] => SFault
  | {| fr_i := i; fr_node := None |} :: _ => SNone st
  | {| fr_i := i; fr_node := Some N |} :: below =>
      let n := length (elems N) in
      if (n <? i)%nat then
        match below with
        | [] => SNone st
        | _ => SContinue true below
        end
      else
        match nth_error (children N) i with
        | Some c =>
            if negb visited then
              if (length st <? BT_ITER_STACK_SIZE)%nat
              then SContinue visited ({| fr_i := 0; fr_node := Some c |} :: st)
              else SFault
            else if (i <? n)%nat
            then SYield (nth i (elems N) 0) ({| fr_i := S i; fr_node := Some N |} :: below)
            else SContinue visited ({| fr_i := S i; fr_node := Some N |} :: below)
        | None =>
            if (i <? n)%nat
            then SYield (nth i (elems N) 0) ({| fr_i := S i; fr_node := Some N |} :: below)
            else SContinue visited ({| fr_i := S i; fr_node := Some N |} :: below)
        end
  end.

Inductive iter_result :=
  | IterYield (x : Z) (st : bt_iter_dfs)
  | IterNone (st : bt_iter_dfs)
  | IterFault
  | IterOutOfFuel.

Fixpoint iter_loop (fuel : nat) (visited : bool) (st : bt_iter_dfs) : iter_result :=
  match fuel with
  | O => IterOutOfFuel
  | S fuel' =>
      match iter_step visited st with
      | SContinue v st' => iter_loop fuel' v st'
      | SYield x st' => IterYield x st'
      | SNone st' => IterNone st'
      | SFault => IterFault
      end
  end.

(** Fuel: an iteration pushes a child slot, advances a cursor or pops a
    frame; [node_weight] bounds how often that happens below a node. *)
Fixpoint node_weight (t : bnode) : nat :=
  let '(BNode es cs) := t in
  (length es + 2 + fold_right (fun c acc => S (node_weight c) + acc) 0 cs)%nat.

Definition frame_weight (f : bt_iter_frame) : nat :=
  match fr_node f with Some N => node_weight N | None => 0%nat end.

Definition iter_fuel (st : bt_iter_dfs) : nat :=
  S (fold_right (fun f acc => frame_weight f + acc) 0 st)%nat.

Definition bt_iter_dfs_next (st : bt_iter_dfs) : iter_result :=
  iter_loop (iter_fuel st) false st.

(** Results of [k] successive calls ([None] is a returned [NULL]); [None]
    as a whole if a call faults. *)
Fixpoint iter_outputs (k : nat) (st : bt_iter_dfs) : option (list (option Z)) :=
  match k with
  | O => Some []
  | S k' =>
      match bt_iter_dfs_next st with
      | IterYield x st' => option_map (cons (Some x)) (iter_outputs k' st')
      | IterNone st' => option_map (cons None) (iter_outputs k' st')
      | _ => None
      end
  end.

(** ** Keys, subtrees, in-order sequence *)

(** Every key stored in a subtree (node first, then the children). *)
Fixpoint node_keys (t : bnode) : list Z :=
  let '(BNode es cs) := t in es ++ flat_map node_keys cs.

Definition bt_keys (t : bt) : list Z :=
  match root t with None => [] | Some r => node_keys r end.

(** Every node of a subtree. *)
Fixpoint subtrees (t : bnode) : list bnode :=
  let '(BNode es cs) := t in BNode es cs :: flat_map subtrees cs.

(** Distance from the node to each leaf below it. *)
Fixpoint leaf_depths (t : bnode) : list nat :=
  let '(BNode _ cs) := t in
  match cs with
  | [] => [0%nat]
  | _ => flat_map (fun c => map S (leaf_depths c)) cs
  end.

Fixpoint height (t : bnode) : nat :=
  let '(BNode _ cs) := t in S (list_max (map height cs)).

(** Child slot [0], key [0], child slot [1], ..., key [n-1], child slot
    [n], skipping absent children: the order of the iterator. *)
Fixpoint interleave (f : bnode -> list Z) (es : list Z) (cs : list bnode)
    {struct cs} : list Z :=
  match cs with
  | [] => es
  | c :: cs' =>
      match es with
      | [] => f c
      | e :: es' => f c ++ e :: interleave f es' cs'
      end
  end.

Fixpoint inorder (t : bnode) : list Z :=
  let '(BNode es cs) := t in interleave inorder es cs.

(** ** The B-tree invariants (section 3 of the spec) *)

Definition keys_increasing (N : bnode) : Prop := StronglySorted Z.lt (elems N).

Definition children_separated (N : bnode) : Prop :=
  forall i e, nth_error (elems N) i = Some e ->
    (forall c, nth_error (children N) i = Some c ->
       forall k, In k (node_keys c) -> k < e) /\
    (forall c, nth_error (children N) (S i) = Some c ->
       forall k, In k (node_keys c) -> e < k).

Definition child_slots_ok (N : bnode) : Prop :=
  children N = [] \/ length (children N) = S (length (elems N)).

Definition bt_invariants (t : bt) : Prop :=
  match root t with
  | None => True
  | Some r =>
      (forall N, In N (subtrees r) ->
         keys_increasing N /\ children_separated N /\ child_slots_ok N) /\
      (exists d, forall d', In d' (leaf_depths r) -> d' = d) /\
      (length (elems r) <= 2 * BT_FACTOR)%nat /\
      (forall c N, In c (children r) -> In N (subtrees c) ->
         (BT_FACTOR <= length (elems N) <= 2 * BT_FACTOR)%nat)
  end.

(** Trees reachable from [bt_mk] by [bt_insert] calls with [int] elements
    and any [prev] argument. *)
Inductive reachable : bt -> Prop :=
  | reach_mk : reachable bt_mk
  | reach_insert t x prev :
      reachable t -> is_int x -> reachable (snd (bt_insert t x prev)).

(** ** Proof invariant: key counts, child slot counts and height *)

Fixpoint shape_ok (lo hi h : nat) (t : bnode) {struct t} : bool :=
  let '(BNode es cs) := t in
  (lo <=? length es)%nat && (length es <=? hi)%nat &&
  match cs with
  | [] => Nat.eqb h 1
  | _ =>
      Nat.eqb (length cs) (S (length es)) &&
      match h with
      | O => false
      | S h' => forallb (shape_ok 2 4 h') cs
      end
  end.

Definition tree_ok (t : bt) : Prop :=
  match root t with
  | None => True
  | Some r =>
      (exists h, shape_ok 1 4 h r = true) /\ StronglySorted Z.lt (inorder r) /\
      Forall is_int (inorder r)
  end.

(** Sorted insertion, the abstract effect of an insertion. *)
Fixpoint sinsert (x : Z) (l : list Z) : list Z :=
  match l with
  | [] => [x]
  | y :: l' => if x <? y then x :: y :: l' else y :: sinsert x l'
  end.

Definition count_lt (x : Z) (l : list Z) : nat :=
  length (filter (fun y => y <? x) l).

(** Pieces of [interleave]: the part before child slot [p] (pairs
    child/key) and the part after it (key/child). *)
Fixpoint interleave_pre (f : bnode -> list Z) (es : list Z) (cs : list bnode)
    : list Z :=
  match es, cs with
  | e :: es', c :: cs' => f c ++ e :: interleave_pre f es' cs'
  | _, _ => []
  end.

Definition from_key (f : bnode -> list Z) (es : list Z) (cs : list bnode)
    : list Z :=
  match es with [] => [] | e :: es' => e :: interleave f es' cs end.

(** The two halves [bt_split_node] makes of a full child. *)
Definition split_left (c : bnode) : bnode :=
  let '(BNode ces ccs) := c in
  BNode (firstn BT_FACTOR ces) (firstn (BT_FACTOR + 1) ccs).

Definition split_right (c : bnode) : bnode :=
  let '(BNode ces ccs) := c in
  BNode (firstn BT_FACTOR (skipn (BT_FACTOR + 1) ces))
        (match ccs with
         | [] => []
         | _ => firstn (BT_FACTOR + 1) (skipn (BT_FACTOR + 1) ccs)
         end).

(** The in-order sequence of a tree. *)
Definition bt_elems (t : bt) : list Z :=
  match root t with None => [] | Some r => inorder r end.

(** Every node holds at least one key. *)
Definition nodes_nonempty (t : bt) : Prop :=
  match root t with
  | None => True
  | Some r => forall N, In N (subtrees r) -> elems N <> []
  end.

(** ** Iterator: what is left to output, and a termination measure

    A frame [(i, N)] on top with [visited_child] false still has to
    output child slot [i], key [i], ..., child slot [n] of [N]; with
    [visited_child] true (child slot [i] done), or below the top, key [i]
    onwards. *)

Definition from_child (N : bnode) (i : nat) : list Z :=
  if (length (elems N) <? i)%nat then []
  else interleave inorder (skipn i (elems N)) (skipn i (children N)).

Definition from_key_at (N : bnode) (i : nat) : list Z :=
  from_key inorder (skipn i (elems N)) (skipn (S i) (children N)).

Definition frame_rest_top (visited : bool) (f : bt_iter_frame) : list Z :=
  match fr_node f with
  | None => []
  | Some N => if visited then from_key_at N (fr_i f) else from_child N (fr_i f)
  end.

Definition frame_rest_below (f : bt_iter_frame) : list Z :=
  match fr_node f with None => [] | Some N => from_key_at N (fr_i f) end.

Definition iter_rest (visited : bool) (st : bt_iter_dfs) : list Z :=
  match st with
  | [] => []
  | f :: below => frame_rest_top visited f ++ flat_map frame_rest_below below
  end.

Definition sumw (cs : list bnode) : nat :=
  fold_right (fun c acc => S (node_weight c) + acc)%nat 0%nat cs.

Definition top_m (visited : bool) (f : bt_iter_frame) : nat :=
  match fr_node f with
  | None => 0
  | Some N =>
      (length (elems N) + 2 - fr_i f +
       sumw (skipn (if visited then S (fr_i f) else fr_i f) (children N)))%nat
  end.

Definition below_m (f : bt_iter_frame) : nat := top_m true f.

Definition iter_measure (visited : bool) (st : bt_iter_dfs) : nat :=
  match st with
  | [] => 0
  | f :: below => (top_m visited f + fold_right (fun f acc => below_m f + acc) 0 below)%nat
  end.

(** Invariant of the iterator state: [H] bounds the height of the tree
    it walks. *)
Definition slots_all (N : bnode) : Prop :=
  forall M, In M (subtrees N) -> child_slots_ok M.

Definition frame_ok (f : bt_iter_frame) : Prop :=
  match fr_node f with
  | None => True
  | Some N => (fr_i f <= S (length (elems N)))%nat /\ slots_all N
  end.

Fixpoint nonbottom_some (st : bt_iter_dfs) : Prop :=
  match st with
  | [] => True
  | [_] => True
  | f :: below => fr_node f <> None /\ nonbottom_some below
  end.

Fixpoint depth_ok (H : nat) (st : bt_iter_dfs) : Prop :=
  match st with
  | [] => True
  | f :: below =>
      match fr_node f with
      | None => True
      | Some N => (height N + length below <= H)%nat
      end /\ depth_ok H below
  end.

Definition iter_inv (H : nat) (st : bt_iter_dfs) : Prop :=
  st <> [] /\ Forall frame_ok st /\ nonbottom_some st /\ depth_ok H st /\
  (H <= BT_ITER_STACK_SIZE)%nat.

(** ** [bt_node_free] / [bt_free]

    The trace of [free] calls, in order.  The loop frees child slots
    [0..n-1], then slot [n]; a slot past the node's child list is [NULL]
    (a leaf), on which the call returns at once.  [BT_ELEM_FREE] is empty. *)

Fixpoint bt_node_free (t : bnode) : list bnode :=
  let '(BNode es cs) := t in
  (fix go (cs : list bnode) (k : nat) : list bnode :=
     match cs with
     | [] => []
     | c :: cs' => bt_node_free c ++ match k with O => [] | S k' => go cs' k' end
     end) cs (length es) ++ [BNode es cs].

Definition bt_free (t : bt) : list bnode :=
  match root t with None => [] | Some r => bt_node_free r end.

(** ** [bt_print]

    The output as the sequence of [printf] calls: [PStr s] for a format
    without conversion, [PInt x] for [printf(" %d", x)]. *)

Inductive print_ev := PStr (s : String.string) | PInt (x : Z).

Definition newline : String.string :=
  String.String (Ascii.ascii_of_nat 10) String.EmptyString.

(** [for (int __i = 0; __i < depth; __i++) printf("  ");] *)
Definition print_indent (depth : Z) : list print_ev :=
  repeat (PStr "  "%string) (Z.to_nat depth).

Definition print_empty (depth : Z) : list print_ev :=
  print_indent depth ++ [PStr ("<empty>" ++ newline)%string].

(** The [i <= node->n] loop over the child slots; slots past the child
    list are [NULL]. *)
Fixpoint bt_print_node (t : bnode) (depth : Z) : list print_ev :=
  let '(BNode es cs) := t in
  print_indent depth ++ [PStr "elems:"%string] ++ map PInt es ++ [PStr newline] ++
  match cs with
  | [] => []
  | _ =>
      (fix go (cs : list bnode) (k : nat) : list print_ev :=
         match cs with
         | [] => concat (repeat (print_empty (depth + 1)) (S k))
         | c :: cs' =>
             bt_print_node c (depth + 1) ++
             match k with O => [] | S k' => go cs' k' end
         end) cs (length es)
  end.

Definition bt_print (t : option bnode) (depth : Z) : list print_ev :=
  match t with None => print_empty depth | Some N => bt_print_node N depth end.

(** The integers printed. *)
Definition printed_ints (out : list print_ev) : list Z :=
  flat_map (fun ev => match ev with PInt x => [x] | PStr _ => [] end) out.

(** A [printf("elems:")] call: the first call of each node's line. *)
Definition is_header (ev : print_ev) : bool :=
  match ev with PStr s => String.eqb s "elems:"%string | PInt _ => false end.

(** ** [bt_lookup_node] with its [node] out-parameter

    [nodep]: [None] for [NULL], [Some v] for a pointer to a cell
    holding [v]; the result carries the cell's final content. *)

Definition write_node (nodep : option (option bnode)) (v : bnode)
    : option (option bnode) :=
  match nodep with Some _ => Some (Some v) | None => None end.

Fixpoint bt_lookup_node_out (t : bnode) (elem : Z) (nodep : option (option bnode))
    : option Z * option (option bnode) :=
  let '(BNode es cs) := t in
  let nodep1 := write_node nodep (BNode es cs) in
  let idx := bt_node_bsearch (length es) es elem in
  if 0 <=? idx then (Some (nth (Z.to_nat idx) es 0), nodep1)
  else
    (fix go (cs : list bnode) (k : nat) : option Z * option (option bnode) :=
       match cs, k with
       | [], _ => (None, nodep1)
       | c :: _, O => bt_lookup_node_out c elem nodep1
       | _ :: cs', S k' => go cs' k'
       end) cs (Z.to_nat (- idx - 1)).

Definition bt_lookup_node_at (t : bt) (elem : Z) (nodep : option (option bnode))
    : option Z * option (option bnode) :=
  match root t with
  | None => (None, nodep)
  | Some r => bt_lookup_node_out r elem nodep
  end.

(** ** [bt_split_node] on the node heap

    Nodes as records holding the fixed-size arrays, pointers as naturals
    ([0] is [NULL]), the heap as a map from pointers with the next free
    address.  Every array access is bounds-checked: [None] is undefined
    behaviour (an access outside [elems[5]] or [children[6]], a [NULL]
    dereference, a [size_t] count that wrapped).  [calloc] is taken to
    succeed. *)
Module Mem.

Record node := MkNode { m_n : nat; m_elems : list Z; m_children : list nat }.

Record heap := MkHeap { hmem : nat -> option node; hnext : nat }.

Definition NULL : nat := 0.

Definition zero_node : node :=
  MkNode 0 (repeat 0 (2 * BT_FACTOR + 1)) (repeat NULL (2 * BT_FACTOR + 2)).

Definition obind {A B} (o : option A) (f : A -> option B) : option B :=
  match o with Some a => f a | None => None end.

Local Notation "x <- a ;; b" := (obind a (fun x => b))
  (at level 100, a at next level, right associativity).

Definition load (h : heap) (p : nat) : option node := hmem h p.

Definition store (h : heap) (p : nat) (nd : node) : option heap :=
  match hmem h p with
  | None => None
  | Some _ => Some (MkHeap (fun q => if Nat.eqb q p then Some nd else hmem h q)
                           (hnext h))
  end.

(** [calloc(1, sizeof(struct bnode))]. *)
Definition calloc (h : heap) : nat * heap :=
  (hnext h,
   MkHeap (fun q => if Nat.eqb q (hnext h) then Some zero_node else hmem h q)
          (S (hnext h))).

Definition arr_get {A} (a : list A) (i : nat) : option A := nth_error a i.

Definition arr_set {A} (a : list A) (i : nat) (v : A) : option (list A) :=
  if (i <? length a)%nat then Some (upd_nth a i v) else None.

(** The [cnt] cells at [a + off]. *)
Definition arr_read {A} (a : list A) (off cnt : nat) : option (list A) :=
  if (off + cnt <=? length a)%nat then Some (firstn cnt (skipn off a)) else None.

Definition arr_write {A} (a : list A) (off : nat) (seg : list A) : option (list A) :=
  if (off + length seg <=? length a)%nat
  then Some (firstn off a ++ seg ++ skipn (off + length seg) a) else None.

(** [memmove(a + dst, a + src, cnt)] inside one array. *)
Definition memmove {A} (a : list A) (dst src cnt : nat) : option (list A) :=
  seg <- arr_read a src cnt ;; arr_write a dst seg.

Definition with_n (nd : node) (n : nat) : node :=
  MkNode n (m_elems nd) (m_children nd).
Definition with_elems (nd : node) (es : list Z) : node :=
  MkNode (m_n nd) es (m_children nd).
Definition with_children (nd : node) (cs : list nat) : node :=
  MkNode (m_n nd) (m_elems nd) cs.

(** [(size_t)a - b], defined only when it does not wrap. *)
Definition size_sub (a b : nat) : option nat :=
  if (b <=? a)%nat then Some (a - b)%nat else None.

Definition bt_split_node (h : heap) (parent idx : nat) : option (Z * heap) :=
  P <- load h parent ;;
  child <- arr_get (m_children P) idx ;;
  cnt <- size_sub (m_n P) idx ;;
  ch1 <- memmove (m_children P) (idx + 1 + 1) (idx + 1) cnt ;;
  h1 <- store h parent (with_children P ch1) ;;
  let (r, h2) := calloc h1 in
  P2 <- load h2 parent ;;
  ch2 <- arr_set (m_children P2) (idx + 1) r ;;
  h3 <- store h2 parent (with_children P2 ch2) ;;
  C3 <- load h3 child ;;
  R3 <- load h3 r ;;
  seg <- arr_read (m_elems C3) (BT_FACTOR + 1) BT_FACTOR ;;
  re <- arr_write (m_elems R3) 0 seg ;;
  h4 <- store h3 r (with_elems R3 re) ;;
  C4 <- load h4 child ;;
  c0 <- arr_get (m_children C4) 0 ;;
  h5 <- (if Nat.eqb c0 NULL then Some h4 else
          R4 <- load h4 r ;;
          segc <- arr_read (m_children C4) (BT_FACTOR + 1) (BT_FACTOR + 1) ;;
          rc <- arr_write (m_children R4) 0 segc ;;
          store h4 r (with_children R4 rc)) ;;
  R5 <- load h5 r ;;
  h6 <- store h5 r (with_n R5 BT_FACTOR) ;;
  C6 <- load h6 child ;;
  h7 <- store h6 child (with_n C6 BT_FACTOR) ;;
  C7 <- load h7 child ;;
  e <- arr_get (m_elems C7) BT_FACTOR ;;
  Some (e, h7).

(** A heap as the allocator leaves it: [NULL] and the addresses from
    [hnext] on are unallocated, every node has its two arrays. *)
Definition heap_wf (h : heap) : Prop :=
  hmem h NULL = None /\
  (forall q, (hnext h <= q)%nat -> hmem h q = None) /\
  (forall q nd, hmem h q = Some nd ->
     length (m_elems nd) = (2 * BT_FACTOR + 1)%nat /\
     length (m_children nd) = (2 * BT_FACTOR + 2)%nat).

(** A parent with one key over a full leaf and a second leaf. *)
Definition split_ex_parent : node := MkNode 1 [6; 0; 0; 0; 0] [2; 3; 0; 0; 0; 0]%nat.
Definition split_ex_child : node := MkNode 5 [1; 2; 3; 4; 5] (repeat NULL 6).
Definition split_ex_leaf : node := MkNode 1 [7; 0; 0; 0; 0] (repeat NULL 6).
Definition split_ex_heap : heap :=
  MkHeap (fun q => match q with
                   | 1 => Some split_ex_parent
                   | 2 => Some split_ex_child
                   | 3 => Some split_ex_leaf
                   | _ => None
                   end)%nat 4.

End Mem.

(** * Proofs *)

(** Sanity checks of the model on a small tree. *)

Example bt_build_ex :
  root (bt_build [10; 20; 5; 6; 12; 30; 7; 17]) =
  Some (BNode [10] [BNode [5; 6; 7] []; BNode [12; 17; 20; 30] []]).
Proof. reflexivity. Qed.

Example iter_ex :
  iter_outputs 10 (bt_iter_dfs_mk (bt_build [10; 20; 5; 6; 12; 30; 7; 17])) =
  Some [Some 5; Some 6; Some 7; Some 10; Some 12; Some 17; Some 20; Some 30;
        None; None].
Proof. reflexivity. Qed.

Example lookup_ex :
  bt_lookup (bt_build [10; 20; 5; 6; 12; 30; 7; 17]) 6 = Some 6 /\
  bt_lookup (bt_build [10; 20; 5; 6; 12; 30; 7; 17]) 8 = None.
Proof. split; reflexivity. Qed.

Example reinsert_ex :
  let t := bt_build [10; 20; 5; 6; 12; 30; 7; 17] in
  bt_insert t 10 (Some 0) = (true, Some 10, t).
Proof. reflexivity. Qed.

(** ** Comparison and list facts *)

Lemma cmp_cases a b :
  (bt_default_cmp a b = 1 /\ b < a) \/ (bt_default_cmp a b = -1 /\ a < b) \/
  (bt_default_cmp a b = 0 /\ a = b).
Proof.
  unfold bt_default_cmp.
  destruct (Z.gtb_spec a b); [left; lia|].
  destruct (Z.ltb_spec a b); [right; left; lia | right; right; lia].
Qed.

Lemma StronglySorted_nth l i j d :
  StronglySorted Z.lt l -> (i < j < length l)%nat -> nth i l d < nth j l d.
Proof.
  revert i j; induction l as [|a l IH]; intros i j Hs Hij; simpl in *; [lia|].
  inversion Hs as [|? ? Hs' Hall]; subst.
  destruct i as [|i], j as [|j]; try lia.
  - rewrite Forall_forall in Hall. apply Hall, nth_In. lia.
  - apply IH; auto; lia.
Qed.

Lemma filter_lt_nil x l :
  (forall j, (j < length l)%nat -> x < nth j l 0) ->
  filter (fun y => y <? x) l = [].
Proof.
  induction l as [|a l IH]; intros H; [reflexivity|]; simpl.
  assert (x < a) by (apply (H 0%nat); simpl; lia).
  destruct (Z.ltb_spec a x); [lia|].
  apply IH. intros j Hj. apply (H (S j)). simpl; lia.
Qed.

Lemma count_lt_split x l p :
  (p <= length l)%nat ->
  (forall j, (j < p)%nat -> nth j l 0 < x) ->
  (forall j, (p <= j < length l)%nat -> x < nth j l 0) ->
  count_lt x l = p.
Proof.
  unfold count_lt; revert p; induction l as [|a l IH]; intros p Hp Hlt Hgt;
    simpl in *.
  - lia.
  - destruct p as [|p].
    + assert (x < a) by (apply (Hgt 0%nat); lia).
      destruct (Z.ltb_spec a x); [lia|].
      rewrite filter_lt_nil; [reflexivity|].
      intros j Hj. apply (Hgt (S j)). lia.
    + assert (a < x) by (apply (Hlt 0%nat); lia).
      destruct (Z.ltb_spec a x); [|lia]. simpl. f_equal.
      apply IH; [lia| |].
      * intros j Hj. apply (Hlt (S j)). lia.
      * intros j Hj. apply (Hgt (S j)). lia.
Qed.

(** ** [bt_node_bsearch] *)

Lemma mid_bounds left right :
  (left < right)%nat -> (left <= left + (right - left) / 2 < right)%nat.
Proof.
  intros H. assert ((right - left) / 2 < right - left)%nat
    by (apply Nat.div_lt; lia). lia.
Qed.

(** Reads stay in [[left, right)], and a not-found exit has [left = right]:
    no sortedness needed. *)
Lemma bsearch_loop_safe es x : forall f left right reads,
  (left < right)%nat -> (right - left <= f)%nat ->
  let s := bsearch_loop f es x left right reads in
  (forall m, In m (bs_reads s) -> In m reads \/ (left <= m < right)%nat) /\
  (bs_cmp s <> 0 -> bs_left s = bs_right s).
Proof.
  induction f as [|f IH]; intros left right reads Hlt Hf; [lia|].
  cbn [bsearch_loop].
  pose proof (mid_bounds left right Hlt) as Hm.
  set (mid := (left + (right - left) / 2)%nat) in *.
  destruct (cmp_cases x (nth mid es 0)) as [[Hc _]|[[Hc _]|[Hc _]]];
    rewrite Hc; simpl.
  - destruct (Nat.ltb_spec (mid + 1) right).
    + destruct (IH (mid + 1)%nat right (reads ++ [mid])) as [IH1 IH2];
        [lia | lia |].
      split; [|exact IH2].
      intros m Hin. destruct (IH1 m Hin) as [Hin'|Hin'].
      * apply in_app_or in Hin' as [?|[<-|[]]]; auto.
      * right; lia.
    + simpl. split; [|lia].
      intros m Hin. apply in_app_or in Hin as [?|[<-|[]]]; auto.
  - destruct (Nat.ltb_spec left mid).
    + destruct (IH left mid (reads ++ [mid])) as [IH1 IH2]; [lia | lia |].
      split; [|exact IH2].
      intros m Hin. destruct (IH1 m Hin) as [Hin'|Hin'].
      * apply in_app_or in Hin' as [?|[<-|[]]]; auto.
      * right; lia.
    + simpl. split; [|lia].
      intros m Hin. apply in_app_or in Hin as [?|[<-|[]]]; auto.
  - split; [|congruence].
    intros m Hin. apply in_app_or in Hin as [?|[<-|[]]]; auto.
Qed.

(** On a sorted node: the loop keeps every key left of [left] below
    [elem] and every key from [right] on above it. *)
Lemma bsearch_loop_correct es x : forall f left right reads,
  StronglySorted Z.lt es ->
  (left < right <= length es)%nat -> (right - left <= f)%nat ->
  (forall j, (j < left)%nat -> nth j es 0 < x) ->
  (forall j, (right <= j < length es)%nat -> x < nth j es 0) ->
  let s := bsearch_loop f es x left right reads in
  (bs_cmp s = 0 /\ (bs_mid s < length es)%nat /\ nth (bs_mid s) es 0 = x) \/
  (bs_cmp s <> 0 /\ (bs_left s <= length es)%nat /\
   (forall j, (j < bs_left s)%nat -> nth j es 0 < x) /\
   (forall j, (bs_left s <= j < length es)%nat -> x < nth j es 0)).
Proof.
  induction f as [|f IH]; intros left right reads Hs Hlt Hf Hl Hr; [lia|].
  cbn [bsearch_loop].
  assert (Hlt' : (left < right)%nat) by lia.
  pose proof (mid_bounds left right Hlt') as Hm.
  set (mid := (left + (right - left) / 2)%nat) in *.
  destruct (cmp_cases x (nth mid es 0)) as [[Hc Hv]|[[Hc Hv]|[Hc Hv]]];
    rewrite Hc; simpl.
  - assert (Hl' : forall j, (j < mid + 1)%nat -> nth j es 0 < x).
    { intros j Hj. destruct (Nat.eq_dec j mid) as [->|Hne]; [lia|].
      pose proof (StronglySorted_nth es j mid 0 Hs). lia. }
    destruct (Nat.ltb_spec (mid + 1) right).
    + apply IH; auto; lia.
    + simpl. right. split; [lia|]. split; [lia|]. split; [exact Hl'|].
      intros j Hj; apply Hr; lia.
  - assert (Hr' : forall j, (mid <= j < length es)%nat -> x < nth j es 0).
    { intros j Hj. destruct (Nat.eq_dec j mid) as [->|Hne]; [lia|].
      pose proof (StronglySorted_nth es mid j 0 Hs). lia. }
    destruct (Nat.ltb_spec left mid).
    + apply IH; auto; lia.
    + simpl. right. split; [lia|]. split; [lia|]. split; [exact Hl|].
      intros j Hj; apply Hr'; lia.
  - left. split; [reflexivity|]. split; [lia|]. lia.
Qed.

Lemma bt_node_bsearch_spec es x :
  StronglySorted Z.lt es -> es <> [] ->
  let r := bt_node_bsearch (length es) es x in
  (0 <= r /\ (Z.to_nat r < length es)%nat /\ nth (Z.to_nat r) es 0 = x) \/
  (r < 0 /\ (Z.to_nat (- r - 1) <= length es)%nat /\
   (forall j, (j < Z.to_nat (- r - 1))%nat -> nth j es 0 < x) /\
   (forall j, (Z.to_nat (- r - 1) <= j < length es)%nat -> x < nth j es 0)).
Proof.
  intros Hs Hne. unfold bt_node_bsearch, bsearch_run.
  assert (Hlen : (0 < length es)%nat) by (destruct es; simpl; [congruence|lia]).
  destruct (bsearch_loop_correct es x (length es) 0 (length es) [] Hs)
    as [[H1 [H2 H3]]|[H1 [H2 [H3 H4]]]]; try lia.
  - left. rewrite H1; simpl. rewrite Nat2Z.id. lia.
  - right. destruct (Z.eqb_spec (bs_cmp (bsearch_loop (length es) es x 0 (length es) [])) 0);
      [contradiction|].
    replace (Z.to_nat (- (- Z.of_nat (bs_left (bsearch_loop (length es) es x 0 (length es) [])) - 1) - 1))
      with (bs_left (bsearch_loop (length es) es x 0 (length es) [])) by lia.
    split; [lia|]. auto.
Qed.

Lemma bsearch_run_safe n es x :
  (1 <= n)%nat ->
  (forall m, In m (bs_reads (bsearch_run n es x)) -> (m < n)%nat) /\
  (bs_cmp (bsearch_run n es x) <> 0 ->
   bs_left (bsearch_run n es x) = bs_right (bsearch_run n es x)).
Proof.
  intros Hn. unfold bsearch_run.
  destruct (bsearch_loop_safe es x n 0 n [] ltac:(lia) ltac:(lia)) as [H1 H2].
  split; [|exact H2].
  intros m Hm. destruct (H1 m Hm) as [[]|?]; lia.
Qed.

(** C7.  On a node whose keys are strictly increasing and which holds at
    least one key, [bt_node_bsearch] returns the index of the key equal to
    [elem] when there is one, and otherwise [-(p) - 1] where [p] is the
    number of keys less than [elem]. *)
Theorem bt_node_bsearch_correct (es : list Z) (elem : Z) :
  StronglySorted Z.lt es -> (1 <= length es)%nat ->
  (forall i, nth_error es i = Some elem ->
     bt_node_bsearch (length es) es elem = Z.of_nat i) /\
  (~ In elem es ->
     bt_node_bsearch (length es) es elem = - Z.of_nat (count_lt elem es) - 1).
Proof.
  intros Hs Hn.
  assert (Hne : es <> []) by (destruct es; simpl in *; [lia|discriminate]).
  destruct (bt_node_bsearch_spec es elem Hs Hne)
    as [[H1 [H2 H3]]|[H1 [H2 [H3 H4]]]];
    set (r := bt_node_bsearch (length es) es elem) in *.
  - split.
    + intros i Hi.
      assert (Hil : (i < length es)%nat) by (apply nth_error_Some; congruence).
      apply (nth_error_nth _ _ 0) in Hi.
      destruct (Nat.lt_total i (Z.to_nat r)) as [Hlt|[Heq|Hgt]].
      * pose proof (StronglySorted_nth es i (Z.to_nat r) 0 Hs). lia.
      * lia.
      * pose proof (StronglySorted_nth es (Z.to_nat r) i 0 Hs). lia.
    + intros Hnin. exfalso. apply Hnin. rewrite <- H3. apply nth_In. exact H2.
  - split.
    + intros i Hi. exfalso.
      assert (Hil : (i < length es)%nat) by (apply nth_error_Some; congruence).
      apply (nth_error_nth _ _ 0) in Hi.
      destruct (Nat.lt_ge_cases i (Z.to_nat (- r - 1))).
      * specialize (H3 i). lia.
      * specialize (H4 i). lia.
    + intros _. rewrite (count_lt_split elem es (Z.to_nat (- r - 1))); auto.
      lia.
Qed.

(** C8.  When the node holds at least one key, [bt_node_bsearch] reads
    [elems[mid]] only at [0 <= mid < n] and its [assert(left == right)]
    holds.  The precondition is needed: on an empty node the only read is
    [elems[0]], outside the node, and the assertion fails for every key
    above that slot. *)
Theorem bt_node_bsearch_bounds (n : nat) (es : list Z) (elem : Z) :
  ((1 <= n)%nat ->
   (forall m, In m (bsearch_reads n es elem) -> (m < n)%nat) /\
   bsearch_assert_ok n es elem = true) /\
  (n = 0%nat ->
   bsearch_reads n es elem = [0%nat] /\
   (nth 0 es 0 < elem -> bsearch_assert_ok n es elem = false)).
Proof.
  split.
  - intros Hn. destruct (bsearch_run_safe n es elem Hn) as [H1 H2].
    split; [exact H1|].
    unfold bsearch_assert_ok.
    destruct (Z.eqb_spec (bs_cmp (bsearch_run n es elem)) 0); [reflexivity|].
    simpl. apply Nat.eqb_eq. auto.
  - intros ->. unfold bsearch_reads, bsearch_assert_ok, bsearch_run. simpl.
    split; [reflexivity|].
    intros Hlt. unfold bt_default_cmp.
    destruct (Z.gtb_spec elem (nth 0 es 0)); [|lia]. reflexivity.
Qed.

(** ** Nodes: induction, unfolding of the child-slot loops *)

Fixpoint bnode_ind' (P : bnode -> Prop)
    (H : forall es cs, Forall P cs -> P (BNode es cs)) (t : bnode) : P t :=
  let '(BNode es cs) := t in
  H es cs ((fix go (cs : list bnode) : Forall P cs :=
              match cs with
              | [] => Forall_nil P
              | c :: cs' => Forall_cons c (bnode_ind' P H c) (go cs')
              end) cs).

Lemma child_fix_some {B} (g : bnode -> B) : forall cs k,
  (fix go (cs : list bnode) (k : nat) : option B :=
     match cs, k with
     | [], _ => None
     | c :: _, O => Some (g c)
     | _ :: cs', S k' => go cs' k'
     end) cs k = option_map g (nth_error cs k).
Proof. induction cs as [|c cs IH]; intros [|k]; simpl; auto. Qed.

Lemma child_fix_opt {B} (g : bnode -> option B) : forall cs k,
  (fix go (cs : list bnode) (k : nat) : option B :=
     match cs, k with
     | [], _ => None
     | c :: _, O => g c
     | _ :: cs', S k' => go cs' k'
     end) cs k = match nth_error cs k with Some c => g c | None => None end.
Proof. induction cs as [|c cs IH]; intros [|k]; simpl; auto. Qed.

Lemma bt_lookup_node_eq es cs elem :
  bt_lookup_node (BNode es cs) elem =
  let idx := bt_node_bsearch (length es) es elem in
  if 0 <=? idx then Some (nth (Z.to_nat idx) es 0)
  else match nth_error cs (Z.to_nat (- idx - 1)) with
       | Some c => bt_lookup_node c elem
       | None => None
       end.
Proof.
  cbn [bt_lookup_node]. destruct (0 <=? _); [reflexivity|].
  pose proof (child_fix_opt (fun c => bt_lookup_node c elem) cs
    (Z.to_nat (- bt_node_bsearch (length es) es elem - 1))) as E.
  cbn beta in E. rewrite E. reflexivity.
Qed.

Lemma bt_node_insert_eq es cs elem prev :
  bt_node_insert (BNode es cs) elem prev =
  let idx := bt_node_bsearch (length es) es elem in
  if 0 <=? idx then
    (true, write_prev prev (nth (Z.to_nat idx) es 0),
     BNode (upd_nth es (Z.to_nat idx) elem) cs)
  else
    let p := Z.to_nat (- idx - 1) in
    match nth_error cs p with
    | None => (false, prev, BNode (ins_at es p elem) cs)
    | Some c =>
        let '(replaced, prev', child) := bt_node_insert c elem prev in
        let cs1 := upd_nth cs p child in
        if (length (elems child) <=? 2 * BT_FACTOR)%nat
        then (replaced, prev', BNode es cs1)
        else
          let '(promoted, cs2) := bt_split_node cs1 p in
          (false, prev', BNode (ins_at es p promoted) cs2)
    end.
Proof.
  cbn [bt_node_insert]. destruct (0 <=? _); [reflexivity|].
  pose proof (child_fix_some (fun c => bt_node_insert c elem prev) cs
    (Z.to_nat (- bt_node_bsearch (length es) es elem - 1))) as E.
  cbn beta in E. rewrite E.
  destruct (nth_error cs _); reflexivity.
Qed.

(** ** The in-order sequence *)

Lemma interleave_app f A B C D :
  length A = length C ->
  interleave f (A ++ B) (C ++ D) = interleave_pre f A C ++ interleave f B D.
Proof.
  revert C; induction A as [|a A IH]; intros [|c C] HL; simpl in *;
    try discriminate; [reflexivity|].
  rewrite IH by lia. rewrite <- app_assoc. reflexivity.
Qed.

Lemma interleave_cons_cons f e es c cs :
  interleave f (e :: es) (c :: cs) = f c ++ e :: interleave f es cs.
Proof. reflexivity. Qed.

Lemma interleave_cons f es c D :
  interleave f es (c :: D) = f c ++ from_key f es D.
Proof. destruct es; simpl; auto using app_nil_r. Qed.

Lemma firstn_skipn_nth {A} (l : list A) p x :
  nth_error l p = Some x -> l = firstn p l ++ x :: skipn (S p) l.
Proof.
  revert p; induction l as [|a l IH]; intros [|p] H; simpl in *;
    try discriminate.
  - injection H as ->. reflexivity.
  - f_equal. apply IH. exact H.
Qed.

Lemma firstn_length_le' {A} (l : list A) p :
  (p <= length l)%nat -> length (firstn p l) = p.
Proof. intros. rewrite length_firstn. lia. Qed.

Lemma inorder_decomp es cs p c :
  (p <= length es)%nat -> nth_error cs p = Some c ->
  inorder (BNode es cs) =
  interleave_pre inorder (firstn p es) (firstn p cs) ++ inorder c ++
  from_key inorder (skipn p es) (skipn (S p) cs).
Proof.
  intros Hp Hc. simpl.
  assert (Hpc : (p < length cs)%nat) by (apply nth_error_Some; congruence).
  rewrite (firstn_skipn_nth cs p c Hc) at 1.
  rewrite <- (firstn_skipn p es) at 1.
  rewrite interleave_app
    by (rewrite !length_firstn; lia).
  rewrite interleave_cons. reflexivity.
Qed.

Lemma inorder_upd es cs p c :
  (p <= length es)%nat -> (p < length cs)%nat ->
  inorder (BNode es (upd_nth cs p c)) =
  interleave_pre inorder (firstn p es) (firstn p cs) ++ inorder c ++
  from_key inorder (skipn p es) (skipn (S p) cs).
Proof.
  intros Hp Hpc. simpl. unfold upd_nth.
  destruct (Nat.ltb_spec p (length cs)); [|lia].
  rewrite <- (firstn_skipn p es) at 1.
  rewrite interleave_app by (rewrite !length_firstn; lia).
  rewrite interleave_cons. reflexivity.
Qed.

Lemma interleave_pre_last f es cs p :
  (1 <= p)%nat -> (p <= length es)%nat -> (p <= length cs)%nat ->
  exists pre, interleave_pre f (firstn p es) (firstn p cs) =
              pre ++ [nth (p - 1) es 0].
Proof.
  revert es cs; induction p as [|p IH]; intros es cs H1 H2 H3; [lia|].
  destruct es as [|e es], cs as [|c cs]; simpl in *; try lia.
  destruct p as [|p].
  - exists (f c). reflexivity.
  - destruct (IH es cs) as [pre Hpre]; try lia.
    exists (f c ++ e :: pre). rewrite Hpre. simpl.
    replace (p - 0)%nat with p by lia.
    rewrite <- app_assoc. reflexivity.
Qed.

(** Splitting a full node keeps its in-order sequence. *)
Lemma split_inorder ces ccs :
  length ces = 5%nat -> ccs = [] \/ length ccs = 6%nat ->
  let rcc := match ccs with [] => [] | _ => firstn 3 (skipn 3 ccs) end in
  inorder (BNode ces ccs) =
  inorder (BNode (firstn 2 ces) (firstn 3 ccs)) ++ nth 2 ces 0 ::
  inorder (BNode (firstn 2 (skipn 3 ces)) rcc).
Proof.
  intros He Hc.
  destruct ces as [|e0 [|e1 [|e2 [|e3 [|e4 [|]]]]]]; simpl in He; try lia.
  destruct Hc as [->|Hc]; [reflexivity|].
  destruct ccs as [|c0 [|c1 [|c2 [|c3 [|c4 [|c5 [|]]]]]]]; simpl in Hc;
    try lia.
  simpl. repeat (rewrite <- app_assoc; simpl). reflexivity.
Qed.

(** ** Sorted lists and sorted insertion *)

Lemma SS_app_inv (l1 l2 : list Z) :
  StronglySorted Z.lt (l1 ++ l2) ->
  StronglySorted Z.lt l1 /\ StronglySorted Z.lt l2 /\
  (forall a b, In a l1 -> In b l2 -> a < b).
Proof.
  induction l1 as [|a l1 IH]; simpl; intros Hs.
  - split; [constructor|]. split; [exact Hs|]. intros ? ? [].
  - inversion Hs as [|? ? Hs' Hall]; subst.
    destruct (IH Hs') as [H1 [H2 H3]].
    rewrite Forall_forall in Hall.
    split; [|split; [exact H2|]].
    + constructor; [exact H1|]. rewrite Forall_forall.
      intros y Hy. apply Hall, in_or_app; auto.
    + intros a' b [<-|Ha] Hb; [apply Hall, in_or_app; auto|]. auto.
Qed.

Lemma SS_app (l1 l2 : list Z) :
  StronglySorted Z.lt l1 -> StronglySorted Z.lt l2 ->
  (forall a b, In a l1 -> In b l2 -> a < b) ->
  StronglySorted Z.lt (l1 ++ l2).
Proof.
  induction l1 as [|a l1 IH]; simpl; intros H1 H2 H3; [exact H2|].
  inversion H1 as [|? ? H1' Hall]; subst.
  constructor.
  - apply IH; auto.
  - rewrite Forall_forall in *. intros y Hy.
    apply in_app_or in Hy as [Hy|Hy]; auto.
Qed.

Lemma In_sinsert x l z : In z (sinsert x l) <-> z = x \/ In z l.
Proof.
  induction l as [|y l IH]; simpl.
  - intuition congruence.
  - destruct (x <? y); simpl; rewrite ?IH; intuition congruence.
Qed.

Lemma sinsert_sorted x l :
  StronglySorted Z.lt l -> ~ In x l -> StronglySorted Z.lt (sinsert x l).
Proof.
  induction l as [|y l IH]; simpl; intros Hs Hn.
  - repeat constructor.
  - inversion Hs as [|? ? Hs' Hall]; subst. rewrite Forall_forall in Hall.
    destruct (Z.ltb_spec x y).
    + constructor; [exact Hs|]. constructor; [exact H|].
      rewrite Forall_forall. intros z Hz. specialize (Hall z Hz). lia.
    + constructor; [apply IH; tauto|].
      rewrite Forall_forall. intros z Hz. apply In_sinsert in Hz as [->|Hz].
      * assert (x <> y) by (intros ->; tauto). lia.
      * auto.
Qed.

Lemma sinsert_perm x l : Permutation (sinsert x l) (x :: l).
Proof.
  induction l as [|y l IH]; simpl; [reflexivity|].
  destruct (x <? y); [reflexivity|].
  rewrite IH. apply perm_swap.
Qed.

Lemma sinsert_app_l x A B :
  (forall a, In a A -> a < x) -> sinsert x (A ++ B) = A ++ sinsert x B.
Proof.
  induction A as [|a A IH]; simpl; intros H; [reflexivity|].
  destruct (Z.ltb_spec x a); [specialize (H a (or_introl eq_refl)); lia|].
  rewrite IH by auto. reflexivity.
Qed.

Lemma sinsert_app_r x A B :
  (forall b, In b B -> x < b) -> sinsert x (A ++ B) = sinsert x A ++ B.
Proof.
  induction A as [|a A IH]; simpl; intros H.
  - destruct B as [|b B]; [reflexivity|]. simpl.
    destruct (Z.ltb_spec x b); [reflexivity|].
    specialize (H b (or_introl eq_refl)); lia.
  - destruct (x <? a); [reflexivity|]. rewrite IH by auto. reflexivity.
Qed.

Lemma skipn_nth_cons {A} (l : list A) p d :
  (p < length l)%nat -> skipn p l = nth p l d :: skipn (S p) l.
Proof.
  revert p; induction l as [|a l IH]; intros [|p] H; simpl in *; try lia;
    [reflexivity|]. apply IH. lia.
Qed.

Lemma In_firstn_nth (l : list Z) p y :
  In y (firstn p l) -> exists j, (j < p)%nat /\ (j < length l)%nat /\ nth j l 0 = y.
Proof.
  intros Hy. apply In_nth with (d := 0) in Hy as [j [Hj Hy]].
  rewrite length_firstn in Hj. exists j.
  split; [lia|]. split; [lia|]. rewrite nth_firstn in Hy.
  destruct (Nat.ltb_spec j p); [exact Hy|lia].
Qed.

Lemma In_skipn_nth (l : list Z) p y :
  In y (skipn p l) -> exists j, (p <= j < length l)%nat /\ nth j l 0 = y.
Proof.
  intros Hy. apply In_nth with (d := 0) in Hy as [j [Hj Hy]].
  rewrite length_skipn in Hj. exists (p + j)%nat.
  split; [lia|]. rewrite nth_skipn in Hy. exact Hy.
Qed.

(** Insertion into a leaf at the point [bt_node_bsearch] found. *)
Lemma ins_at_sinsert es p x :
  (p <= length es)%nat ->
  (forall j, (j < p)%nat -> nth j es 0 < x) ->
  (forall j, (p <= j < length es)%nat -> x < nth j es 0) ->
  ins_at es p x = sinsert x es.
Proof.
  intros Hp Hl Hr. unfold ins_at.
  transitivity (sinsert x (firstn p es ++ skipn p es));
    [|now rewrite firstn_skipn].
  rewrite sinsert_app_l.
  - rewrite <- (app_nil_l (skipn p es)) at 2. rewrite sinsert_app_r.
    + reflexivity.
    + intros b Hb. apply In_skipn_nth in Hb as [j [Hj <-]]. auto.
  - intros a Ha. apply In_firstn_nth in Ha as [j [Hj [_ <-]]]. auto.
Qed.

(** ** Shapes *)

Lemma shape_ok_iff lo hi h es cs :
  shape_ok lo hi h (BNode es cs) = true <->
  (lo <= length es <= hi)%nat /\
  ((cs = [] /\ h = 1%nat) \/
   (cs <> [] /\ length cs = S (length es) /\
    exists h', h = S h' /\ forall c, In c cs -> shape_ok 2 4 h' c = true)).
Proof.
  simpl. rewrite !andb_true_iff, !Nat.leb_le.
  destruct cs as [|c cs].
  - rewrite Nat.eqb_eq. split.
    + intros [[H1 H2] H3]. split; [lia|]. left; auto.
    + intros [H1 [[_ H2]|[H2 _]]]; [split; [lia|exact H2]|congruence].
  - rewrite andb_true_iff, Nat.eqb_eq. split.
    + intros [[H1 H2] [H3 H4]]. split; [lia|]. right.
      split; [discriminate|]. split; [exact H3|].
      destruct h as [|h']; [discriminate|]. exists h'. split; [reflexivity|].
      apply forallb_forall. exact H4.
    + intros [H1 [[H2 _]|[_ [H2 [h' [-> H3]]]]]]; [discriminate|].
      split; [lia|]. split; [exact H2|]. apply forallb_forall. exact H3.
Qed.

Lemma shape_ok_relax lo hi hi' h t :
  (hi <= hi')%nat -> shape_ok lo hi h t = true -> shape_ok lo hi' h t = true.
Proof.
  destruct t as [es cs]. rewrite !shape_ok_iff. intros Hh [H1 H2].
  split; [lia|exact H2].
Qed.

Lemma bt_split_node_eq cs p c :
  nth_error cs p = Some c ->
  bt_split_node cs p =
  (nth BT_FACTOR (elems c) 0,
   firstn p cs ++ split_left c :: split_right c :: skipn (S p) cs).
Proof. intros H. unfold bt_split_node. rewrite H. destruct c; reflexivity. Qed.

Lemma split_shape h c :
  shape_ok 2 5 h c = true -> length (elems c) = 5%nat ->
  shape_ok 2 4 h (split_left c) = true /\ shape_ok 2 4 h (split_right c) = true.
Proof.
  destruct c as [ces ccs]; simpl elems; intros Hs Hl.
  apply shape_ok_iff in Hs as [_ Hs].
  destruct ces as [|e0 [|e1 [|e2 [|e3 [|e4 [|]]]]]]; simpl in Hl; try lia.
  destruct Hs as [[-> ->]|[Hne [Hlc [h' [-> Hc]]]]]; [split; reflexivity|].
  destruct ccs as [|c0 [|c1 [|c2 [|c3 [|c4 [|c5 [|]]]]]]]; simpl in Hlc;
    try lia.
  unfold split_left, split_right; simpl.
  rewrite !Hc by (simpl; tauto). split; reflexivity.
Qed.

Lemma split_inorder' c :
  length (elems c) = 5%nat ->
  children c = [] \/ length (children c) = 6%nat ->
  inorder c = inorder (split_left c) ++ nth BT_FACTOR (elems c) 0 ::
              inorder (split_right c).
Proof.
  destruct c as [ces ccs]; simpl elems; simpl children; intros He Hc.
  rewrite (split_inorder ces ccs He Hc).
  destruct ccs; reflexivity.
Qed.

Lemma In_interleave_es f es cs e : In e es -> In e (interleave f es cs).
Proof.
  revert es; induction cs as [|c cs IH]; intros es H; simpl; [exact H|].
  destruct es as [|e' es]; [destruct H|].
  apply in_or_app; right. destruct H as [<-|H]; [left; reflexivity|].
  right; auto.
Qed.

Lemma SS_interleave_es f es cs :
  StronglySorted Z.lt (interleave f es cs) -> StronglySorted Z.lt es.
Proof.
  revert es; induction cs as [|c cs IH]; intros es H; simpl in H; [exact H|].
  destruct es as [|e es]; [constructor|].
  apply SS_app_inv in H as [_ [H _]].
  inversion H as [|? ? H' Hall]; subst.
  constructor; [apply IH; exact H'|].
  rewrite Forall_forall in *. intros y Hy. apply Hall, In_interleave_es. exact Hy.
Qed.

Lemma pre_post_bounds es cs p c x :
  StronglySorted Z.lt (inorder (BNode es cs)) ->
  (p <= length es)%nat -> nth_error cs p = Some c ->
  length cs = S (length es) ->
  (forall j, (j < p)%nat -> nth j es 0 < x) ->
  (forall j, (p <= j < length es)%nat -> x < nth j es 0) ->
  (forall y, In y (interleave_pre inorder (firstn p es) (firstn p cs)) -> y < x) /\
  (forall y, In y (from_key inorder (skipn p es) (skipn (S p) cs)) -> x < y).
Proof.
  intros Hs Hp Hc Hlc Hl Hr.
  rewrite (inorder_decomp es cs p c Hp Hc) in Hs.
  split.
  - intros y Hy. destruct p as [|p]; [destruct Hy|].
    destruct (interleave_pre_last inorder es cs (S p)) as [pre Hpre]; try lia.
    rewrite Hpre in Hy, Hs.
    replace (S p - 1)%nat with p in * by lia.
    assert (He : nth p es 0 < x) by (apply Hl; lia).
    apply in_app_or in Hy as [Hy|[<-|[]]]; [|exact He].
    rewrite <- app_assoc in Hs. simpl in Hs.
    apply SS_app_inv in Hs as [_ [_ H3]].
    specialize (H3 y (nth p es 0) Hy (or_introl eq_refl)). lia.
  - intros y Hy.
    destruct (Nat.eq_dec p (length es)) as [->|Hne].
    + rewrite skipn_all in Hy. destruct Hy.
    + rewrite (skipn_nth_cons es p 0) in Hy, Hs by lia.
      simpl in Hy, Hs.
      apply SS_app_inv in Hs as [_ [Hs _]].
      apply SS_app_inv in Hs as [_ [Hs _]].
      inversion Hs as [|? ? _ Hall]; subst. rewrite Forall_forall in Hall.
      assert (x < nth p es 0) by (apply Hr; lia).
      destruct Hy as [<-|Hy]; [lia|]. specialize (Hall y Hy). lia.
Qed.

(** ** Index updates *)

Lemma In_firstn_l {A} (l : list A) p d : In d (firstn p l) -> In d l.
Proof. intros H. rewrite <- (firstn_skipn p l). apply in_or_app; auto. Qed.

Lemma In_skipn_l {A} (l : list A) p d : In d (skipn p l) -> In d l.
Proof. intros H. rewrite <- (firstn_skipn p l). apply in_or_app; auto. Qed.

Lemma length_upd_nth {A} (l : list A) p v :
  (p < length l)%nat -> length (upd_nth l p v) = length l.
Proof.
  intros H. unfold upd_nth. destruct (Nat.ltb_spec p (length l)); [|lia].
  rewrite length_app, length_firstn. cbn [length].
  rewrite length_skipn. lia.
Qed.

Lemma nth_error_upd_nth {A} (l : list A) p v :
  (p < length l)%nat -> nth_error (upd_nth l p v) p = Some v.
Proof.
  intros H. unfold upd_nth. destruct (Nat.ltb_spec p (length l)); [|lia].
  rewrite nth_error_app2; rewrite length_firstn;
    [|lia]. replace (p - Init.Nat.min p (length l))%nat with 0%nat by lia.
  reflexivity.
Qed.

Lemma firstn_upd_nth {A} (l : list A) p v :
  (p < length l)%nat -> firstn p (upd_nth l p v) = firstn p l.
Proof.
  intros H. unfold upd_nth. destruct (Nat.ltb_spec p (length l)); [|lia].
  rewrite firstn_app, length_firstn.
  replace (p - Init.Nat.min p (length l))%nat with 0%nat by lia.
  rewrite firstn_firstn, Nat.min_id. simpl. apply app_nil_r.
Qed.

Lemma skipn_upd_nth {A} (l : list A) p v :
  (p < length l)%nat -> skipn (S p) (upd_nth l p v) = skipn (S p) l.
Proof.
  intros H. unfold upd_nth. destruct (Nat.ltb_spec p (length l)); [|lia].
  rewrite skipn_app, length_firstn.
  rewrite skipn_all2 by (rewrite length_firstn; lia).
  replace (S p - Init.Nat.min p (length l))%nat with 1%nat by lia.
  reflexivity.
Qed.

Lemma In_upd_nth {A} (l : list A) p v d :
  In d (upd_nth l p v) -> d = v \/ In d l.
Proof.
  unfold upd_nth. intros H. destruct (p <? length l)%nat; [|auto].
  apply in_app_or in H as [H|[H|H]].
  - right. eapply In_firstn_l; eauto.
  - left; auto.
  - right. eapply In_skipn_l; eauto.
Qed.

Lemma upd_nth_same {A} (l : list A) p v :
  nth_error l p = Some v -> upd_nth l p v = l.
Proof.
  intros H. unfold upd_nth.
  assert (Hp : (p < length l)%nat) by (apply nth_error_Some; congruence).
  destruct (Nat.ltb_spec p (length l)); [|lia].
  symmetry. apply firstn_skipn_nth. exact H.
Qed.

Lemma length_upd_nth_any {A} (l : list A) p v :
  length (upd_nth l p v) = length l.
Proof.
  unfold upd_nth. destruct (Nat.ltb_spec p (length l)); [|reflexivity].
  rewrite length_app, length_firstn. cbn [length]. rewrite length_skipn. lia.
Qed.

Lemma length_ins_at {A} (l : list A) p v :
  (p <= length l)%nat -> length (ins_at l p v) = S (length l).
Proof.
  intros H. unfold ins_at. rewrite length_app, length_firstn. cbn [length].
  rewrite length_skipn. lia.
Qed.

Lemma split_children_length (cs : list bnode) p a b :
  (p < length cs)%nat ->
  length (firstn p cs ++ a :: b :: skipn (S p) cs) = S (length cs).
Proof.
  intros H. rewrite length_app, length_firstn. cbn [length].
  rewrite length_skipn. lia.
Qed.

Lemma In_split_children (cs : list bnode) p a b d :
  In d (firstn p cs ++ a :: b :: skipn (S p) cs) -> d = a \/ d = b \/ In d cs.
Proof.
  intros H. apply in_app_or in H as [H|[H|[H|H]]]; auto.
  - right; right. eapply In_firstn_l; eauto.
  - right; right. eapply In_skipn_l; eauto.
Qed.

Lemma inorder_split_parent es cs p L m R :
  (p <= length es)%nat -> (p < length cs)%nat ->
  inorder (BNode (ins_at es p m) (firstn p cs ++ L :: R :: skipn (S p) cs)) =
  interleave_pre inorder (firstn p es) (firstn p cs) ++
  (inorder L ++ m :: inorder R) ++
  from_key inorder (skipn p es) (skipn (S p) cs).
Proof.
  intros Hp Hpc. cbn [inorder]. unfold ins_at.
  rewrite interleave_app by (rewrite !length_firstn; lia).
  rewrite interleave_cons_cons, interleave_cons. rewrite <- !app_assoc.
  reflexivity.
Qed.

(** ** Insertion of a key not yet stored *)

Lemma node_insert_fresh : forall t lo h x prev rep pv t',
  (1 <= lo)%nat -> shape_ok lo 4 h t = true ->
  StronglySorted Z.lt (inorder t) -> ~ In x (inorder t) ->
  bt_node_insert t x prev = (rep, pv, t') ->
  rep = false /\ pv = prev /\ inorder t' = sinsert x (inorder t) /\
  shape_ok lo 5 h t' = true.
Proof.
  intro t; induction t as [es cs IH] using bnode_ind'.
  intros lo h x prev rep pv t' Hlo Hsh Hs Hn Hins.
  rewrite bt_node_insert_eq in Hins. cbv zeta in Hins.
  pose proof Hsh as Hsh'. apply shape_ok_iff in Hsh' as [Hn1 Hcs].
  assert (Hes : StronglySorted Z.lt es) by exact (SS_interleave_es inorder es cs Hs).
  assert (Hne : es <> []) by (destruct es; simpl in *; [lia|discriminate]).
  destruct (bt_node_bsearch_spec es x Hes Hne)
    as [[H1 [H2 H3]]|[H1 [H2 [H3 H4]]]].
  { exfalso. apply Hn. simpl. apply In_interleave_es. rewrite <- H3.
    apply nth_In; auto. }
  set (r := bt_node_bsearch (length es) es x) in *.
  destruct (Z.leb_spec 0 r) as [?|_]; [lia|].
  set (p := Z.to_nat (- r - 1)) in *.
  destruct (nth_error cs p) as [c|] eqn:Hc.
  - destruct Hcs as [[-> _]|[Hcne [Hlc [h' [-> Hch]]]]];
      [destruct p; discriminate|].
    assert (Hcin : In c cs) by (eapply nth_error_In; eauto).
    assert (Hpc : (p < length cs)%nat) by (apply nth_error_Some; congruence).
    rewrite Forall_forall in IH.
    destruct (bt_node_insert c x prev) as [[rep1 pv1] c'] eqn:Ec.
    destruct (pre_post_bounds es cs p c x Hs H2 Hc Hlc H3 H4) as [Hpre Hpost].
    pose proof Hs as Hs2. rewrite (inorder_decomp es cs p c H2 Hc) in Hs2.
    apply SS_app_inv in Hs2 as [_ [Hs2 _]].
    apply SS_app_inv in Hs2 as [Hsc _].
    assert (Hnc : ~ In x (inorder c)).
    { intros Hx. apply Hn. rewrite (inorder_decomp es cs p c H2 Hc).
      apply in_or_app; right; apply in_or_app; left; exact Hx. }
    destruct (IH c Hcin 2%nat h' x prev rep1 pv1 c' ltac:(lia) (Hch c Hcin)
                Hsc Hnc Ec) as [-> [-> [Hin' Hsh2]]].
    assert (Heq : sinsert x (inorder (BNode es cs)) =
      interleave_pre inorder (firstn p es) (firstn p cs) ++ inorder c' ++
      from_key inorder (skipn p es) (skipn (S p) cs)).
    { rewrite (inorder_decomp es cs p c H2 Hc).
      rewrite (sinsert_app_l x _ _ Hpre).
      rewrite (sinsert_app_r x _ _ Hpost). rewrite Hin'. reflexivity. }
    destruct (Nat.leb_spec (length (elems c')) (2 * BT_FACTOR)) as [Hle|Hgt].
    + injection Hins as <- <- <-.
      split; [reflexivity|]. split; [reflexivity|]. split.
      * rewrite inorder_upd by lia. rewrite Heq. reflexivity.
      * apply shape_ok_iff. split; [lia|]. right.
        split; [intros E; pose proof (f_equal (@length bnode) E) as E';
                rewrite length_upd_nth in E' by lia; simpl in E'; lia|].
        split; [rewrite length_upd_nth by lia; exact Hlc|].
        exists h'. split; [reflexivity|].
        intros d Hd. apply In_upd_nth in Hd as [->|Hd]; [|auto].
        destruct c' as [ces' ccs']. apply shape_ok_iff in Hsh2 as [Hb Hr].
        apply shape_ok_iff. simpl in Hle. split; [lia|exact Hr].
    + assert (H5 : length (elems c') = 5%nat).
      { destruct c' as [ces' ccs']. apply shape_ok_iff in Hsh2 as [Hb _].
        simpl in *. lia. }
      rewrite (bt_split_node_eq (upd_nth cs p c') p c') in Hins
        by (apply nth_error_upd_nth; lia).
      rewrite firstn_upd_nth, skipn_upd_nth in Hins by lia.
      injection Hins as <- <- <-.
      assert (Hcc : children c' = [] \/ length (children c') = 6%nat).
      { destruct c' as [ces' ccs']. apply shape_ok_iff in Hsh2 as [_ Hr].
        simpl in *. destruct Hr as [[-> _]|[_ [Hl _]]]; [left|right]; auto; lia. }
      destruct (split_shape h' c' Hsh2 H5) as [HL HR].
      split; [reflexivity|]. split; [reflexivity|]. split.
      * rewrite inorder_split_parent by lia.
        rewrite <- (split_inorder' c' H5 Hcc). rewrite Heq. reflexivity.
      * apply shape_ok_iff. rewrite length_ins_at by lia.
        split; [lia|]. right.
        split; [destruct (firstn p cs); discriminate|].
        split; [rewrite split_children_length by lia; lia|].
        exists h'. split; [reflexivity|].
        intros d Hd. apply In_split_children in Hd as [->|[->|Hd]]; auto.
  - injection Hins as <- <- <-.
    destruct Hcs as [[-> Hh]|[Hcne [Hlc _]]].
    + split; [reflexivity|]. split; [reflexivity|]. split.
      * simpl. apply ins_at_sinsert; auto.
      * apply shape_ok_iff. rewrite length_ins_at by lia.
        split; [lia|]. left; auto.
    + exfalso. apply nth_error_None in Hc. lia.
Qed.

Lemma not_found_not_in es p x :
  (forall j, (j < p)%nat -> nth j es 0 < x) ->
  (forall j, (p <= j < length es)%nat -> x < nth j es 0) -> ~ In x es.
Proof.
  intros Hl Hr Hx. apply In_nth with (d := 0) in Hx as [j [Hj Hjx]].
  destruct (Nat.lt_ge_cases j p) as [H|H];
    [specialize (Hl j H) | specialize (Hr j (conj H Hj))]; lia.
Qed.

(** Where a stored key lies, seen from the node the descent is at. *)
Lemma found_in_child es cs lo h p c x :
  shape_ok lo 4 h (BNode es cs) = true ->
  StronglySorted Z.lt (inorder (BNode es cs)) ->
  In x (inorder (BNode es cs)) ->
  (p <= length es)%nat ->
  (forall j, (j < p)%nat -> nth j es 0 < x) ->
  (forall j, (p <= j < length es)%nat -> x < nth j es 0) ->
  nth_error cs p = Some c -> In x (inorder c).
Proof.
  intros Hsh Hs Hx Hp Hl Hr Hc.
  apply shape_ok_iff in Hsh as [_ [[-> _]|[_ [Hlc _]]]]; [destruct p; discriminate|].
  destruct (pre_post_bounds es cs p c x Hs Hp Hc Hlc Hl Hr) as [Hpre Hpost].
  rewrite (inorder_decomp es cs p c Hp Hc) in Hx.
  apply in_app_or in Hx as [Hx|Hx]; [specialize (Hpre x Hx); lia|].
  apply in_app_or in Hx as [Hx|Hx]; [exact Hx|specialize (Hpost x Hx); lia].
Qed.

Lemma leaf_not_in es cs p x :
  (forall j, (j < p)%nat -> nth j es 0 < x) ->
  (forall j, (p <= j < length es)%nat -> x < nth j es 0) ->
  nth_error cs p = None -> (cs = [] \/ length cs = S (length es)) ->
  (p <= length es)%nat -> ~ In x (inorder (BNode es cs)).
Proof.
  intros Hl Hr Hc [->|Hlc] Hp.
  - simpl. apply (not_found_not_in es p x Hl Hr).
  - apply nth_error_None in Hc. lia.
Qed.

(** ** Insertion of a stored key *)

Lemma node_insert_found : forall t lo h x prev,
  (1 <= lo)%nat -> shape_ok lo 4 h t = true ->
  StronglySorted Z.lt (inorder t) -> In x (inorder t) ->
  bt_node_insert t x prev = (true, write_prev prev x, t).
Proof.
  intro t; induction t as [es cs IH] using bnode_ind'.
  intros lo h x prev Hlo Hsh Hs Hx.
  rewrite bt_node_insert_eq. cbv zeta.
  pose proof Hsh as Hsh'. apply shape_ok_iff in Hsh' as [Hn1 Hcs].
  assert (Hes : StronglySorted Z.lt es) by exact (SS_interleave_es inorder es cs Hs).
  assert (Hne : es <> []) by (destruct es; simpl in *; [lia|discriminate]).
  destruct (bt_node_bsearch_spec es x Hes Hne)
    as [[H1 [H2 H3]]|[H1 [H2 [H3 H4]]]];
    set (r := bt_node_bsearch (length es) es x) in *.
  - destruct (Z.leb_spec 0 r) as [_|?]; [|lia].
    rewrite H3. rewrite upd_nth_same; [reflexivity|].
    rewrite <- H3. apply nth_error_nth'. exact H2.
  - destruct (Z.leb_spec 0 r) as [?|_]; [lia|].
    set (p := Z.to_nat (- r - 1)) in *.
    destruct (nth_error cs p) as [c|] eqn:Hc.
    + destruct Hcs as [[-> _]|[_ [_ [h' [-> Hch]]]]]; [destruct p; discriminate|].
      assert (Hcin : In c cs) by (eapply nth_error_In; eauto).
      pose proof Hs as Hs2. rewrite (inorder_decomp es cs p c H2 Hc) in Hs2.
      apply SS_app_inv in Hs2 as [_ [Hs2 _]]. apply SS_app_inv in Hs2 as [Hsc _].
      rewrite Forall_forall in IH.
      rewrite (IH c Hcin 2%nat h' x prev ltac:(lia) (Hch c Hcin) Hsc
                 (found_in_child es cs lo (S h') p c x Hsh Hs Hx H2 H3 H4 Hc)).
      rewrite upd_nth_same by exact Hc.
      pose proof (Hch c Hcin) as Hc2. destruct c as [ces ccs].
      apply shape_ok_iff in Hc2 as [Hb _]. simpl.
      destruct (Nat.leb_spec (length ces) 4); [reflexivity|lia].
    + exfalso. refine (leaf_not_in es cs p x H3 H4 Hc _ H2 Hx).
      destruct Hcs as [[-> _]|[_ [Hl _]]]; auto.
Qed.

(** ** Lookup *)

Lemma node_lookup_spec : forall t lo h x,
  (1 <= lo)%nat -> shape_ok lo 4 h t = true ->
  StronglySorted Z.lt (inorder t) ->
  bt_lookup_node t x = if in_dec Z.eq_dec x (inorder t) then Some x else None.
Proof.
  intro t; induction t as [es cs IH] using bnode_ind'.
  intros lo h x Hlo Hsh Hs.
  rewrite bt_lookup_node_eq. cbv zeta.
  pose proof Hsh as Hsh'. apply shape_ok_iff in Hsh' as [Hn1 Hcs].
  assert (Hes : StronglySorted Z.lt es) by exact (SS_interleave_es inorder es cs Hs).
  assert (Hne : es <> []) by (destruct es; simpl in *; [lia|discriminate]).
  destruct (bt_node_bsearch_spec es x Hes Hne)
    as [[H1 [H2 H3]]|[H1 [H2 [H3 H4]]]];
    set (r := bt_node_bsearch (length es) es x) in *.
  - destruct (Z.leb_spec 0 r) as [_|?]; [|lia].
    destruct (in_dec Z.eq_dec x (inorder (BNode es cs))) as [_|Hn];
      [now rewrite H3|].
    exfalso. apply Hn. simpl. apply In_interleave_es. rewrite <- H3.
    apply nth_In; auto.
  - destruct (Z.leb_spec 0 r) as [?|_]; [lia|].
    set (p := Z.to_nat (- r - 1)) in *.
    destruct (nth_error cs p) as [c|] eqn:Hc.
    + destruct Hcs as [[-> _]|[_ [Hlc [h' [-> Hch]]]]]; [destruct p; discriminate|].
      assert (Hcin : In c cs) by (eapply nth_error_In; eauto).
      pose proof Hs as Hs2. rewrite (inorder_decomp es cs p c H2 Hc) in Hs2.
      apply SS_app_inv in Hs2 as [_ [Hs2 _]]. apply SS_app_inv in Hs2 as [Hsc _].
      rewrite Forall_forall in IH.
      rewrite (IH c Hcin 2%nat h' x ltac:(lia) (Hch c Hcin) Hsc).
      destruct (in_dec Z.eq_dec x (inorder c)) as [Hx|Hx];
        destruct (in_dec Z.eq_dec x (inorder (BNode es cs))) as [Hy|Hy];
        try reflexivity.
      * exfalso. apply Hy. rewrite (inorder_decomp es cs p c H2 Hc).
        apply in_or_app; right; apply in_or_app; left; exact Hx.
      * exfalso. apply Hx.
        exact (found_in_child es cs lo (S h') p c x Hsh Hs Hy H2 H3 H4 Hc).
    + destruct (in_dec Z.eq_dec x (inorder (BNode es cs))) as [Hy|_]; [|reflexivity].
      exfalso. refine (leaf_not_in es cs p x H3 H4 Hc _ H2 Hy).
      destruct Hcs as [[-> _]|[_ [Hl _]]]; auto.
Qed.

(** ** [bt_insert] on a well-formed tree *)

Lemma shape_ok_bounds lo hi lo' hi' h es cs :
  (lo' <= length es <= hi')%nat ->
  shape_ok lo hi h (BNode es cs) = true -> shape_ok lo' hi' h (BNode es cs) = true.
Proof.
  intros Hb H. apply shape_ok_iff in H as [_ H]. apply shape_ok_iff. auto.
Qed.

Lemma Forall_sinsert (P : Z -> Prop) x l :
  P x -> Forall P l -> Forall P (sinsert x l).
Proof.
  intros Hx Hl. apply Forall_forall. intros z Hz.
  apply In_sinsert in Hz as [->|Hz]; [exact Hx|].
  rewrite Forall_forall in Hl; auto.
Qed.

Lemma bt_insert_found t x prev :
  tree_ok t -> In x (bt_elems t) -> bt_insert t x prev = (true, write_prev prev x, t).
Proof.
  destruct t as [[r|] sz]; unfold tree_ok, bt_elems; simpl; [|tauto].
  intros [[h Hsh] [Hs _]] Hx. unfold bt_insert; simpl.
  rewrite (node_insert_found r 1 h x prev ltac:(lia) Hsh Hs Hx).
  destruct r as [es cs]. apply shape_ok_iff in Hsh as [Hb _]. simpl.
  destruct (Nat.leb_spec (length es) 4); [reflexivity|lia].
Qed.

Lemma bt_insert_fresh t x prev :
  tree_ok t -> is_int x -> ~ In x (bt_elems t) ->
  exists t', bt_insert t x prev = (false, prev, t') /\ tree_ok t' /\
    bt_elems t' = sinsert x (bt_elems t) /\ size t' = size t /\
    root t' <> None.
Proof.
  destruct t as [[r|] sz]; unfold tree_ok, bt_elems; simpl.
  - intros [[h Hsh] [Hs Hi]] Hx Hn. unfold bt_insert; simpl.
    destruct (bt_node_insert r x prev) as [[rep pv] r'] eqn:E.
    destruct (node_insert_fresh r 1 h x prev rep pv r' ltac:(lia) Hsh Hs Hn E)
      as [-> [-> [Hin Hsh2]]].
    assert (Hs' : StronglySorted Z.lt (inorder r')) by
      (rewrite Hin; apply sinsert_sorted; auto).
    assert (Hi' : Forall is_int (inorder r')) by
      (rewrite Hin; apply Forall_sinsert; auto).
    destruct (Nat.leb_spec (length (elems r')) 4) as [Hle|Hgt].
    + eexists; split; [reflexivity|]. simpl.
      split; [|split; [exact Hin|split; [reflexivity|discriminate]]].
      split; [|split; assumption]. exists h.
      destruct r' as [es' cs']. apply (shape_ok_bounds 1 5); [|exact Hsh2].
      apply shape_ok_iff in Hsh2 as [Hb _]. simpl in Hle. unfold BT_FACTOR in Hle. lia.
    + assert (H5 : length (elems r') = 5%nat).
      { destruct r' as [es' cs']. apply shape_ok_iff in Hsh2 as [Hb _].
        simpl in *. unfold BT_FACTOR in Hgt. lia. }
      assert (Hcc : children r' = [] \/ length (children r') = 6%nat).
      { destruct r' as [es' cs']. apply shape_ok_iff in Hsh2 as [_ Hr].
        simpl in *. destruct Hr as [[-> _]|[_ [Hl _]]]; [left|right]; auto; lia. }
      assert (Hsh3 : shape_ok 2 5 h r' = true).
      { destruct r' as [es' cs']. apply (shape_ok_bounds 1 5); [|exact Hsh2].
        simpl in H5. lia. }
      destruct (split_shape h r' Hsh3 H5) as [HL HR].
      rewrite (bt_split_node_eq [r'] 0 r' eq_refl).
      eexists; split; [reflexivity|]. cbn [root size tree_ok bt_elems firstn skipn app].
      assert (Hin2 : inorder (BNode [nth BT_FACTOR (elems r') 0]
                                     [split_left r'; split_right r']) = inorder r')
        by (rewrite (split_inorder' r' H5 Hcc); reflexivity).
      split; [|split; [rewrite Hin2; exact Hin|split; [reflexivity|discriminate]]].
      rewrite Hin2. split; [|split; assumption].
      exists (S h). apply shape_ok_iff. simpl. split; [lia|]. right.
      split; [discriminate|]. split; [reflexivity|]. exists h. split; [reflexivity|].
      intros d [<-|[<-|[]]]; assumption.
  - intros _ Hx _. eexists; split; [reflexivity|]. simpl.
    split; [|split; [reflexivity|split; [reflexivity|discriminate]]].
    split; [exists 1%nat; reflexivity|]. split.
    + repeat constructor.
    + constructor; [exact Hx|constructor].
Qed.

Lemma reachable_tree_ok t : reachable t -> tree_ok t.
Proof.
  induction 1 as [|t x prev Ht IH Hx]; [exact I|].
  destruct (in_dec Z.eq_dec x (bt_elems t)) as [Hin|Hn].
  - rewrite (bt_insert_found t x prev IH Hin). exact IH.
  - destruct (bt_insert_fresh t x prev IH Hx Hn) as [t' [-> [H _]]]. exact H.
Qed.

(** ** From the proof invariant to the invariants of the spec *)

Lemma In_interleave_full f es cs k :
  length cs = S (length es) ->
  In k (interleave f es cs) <-> In k es \/ exists c, In c cs /\ In k (f c).
Proof.
  revert cs; induction es as [|e es IH]; intros [|c cs] Hl; simpl in *;
    try discriminate.
  - destruct cs; [|discriminate]. split.
    + intros H. right. exists c. auto.
    + intros [[]|[c' [[<-|[]] H]]]. exact H.
  - rewrite in_app_iff. simpl. rewrite IH by lia. split.
    + intros [H|[->|[H|[c' [H1 H2]]]]]; eauto.
    + intros [[->|H]|[c' [[<-|H1] H2]]]; auto.
      right; right; right. eauto.
Qed.

Lemma node_keys_inorder : forall t lo hi h k,
  shape_ok lo hi h t = true -> In k (node_keys t) <-> In k (inorder t).
Proof.
  intro t; induction t as [es cs IH] using bnode_ind'.
  intros lo hi h k Hsh. apply shape_ok_iff in Hsh as [_ [[-> _]|[_ [Hl [h' [_ Hch]]]]]].
  - simpl. rewrite app_nil_r. reflexivity.
  - simpl. rewrite in_app_iff, in_flat_map, In_interleave_full by exact Hl.
    rewrite Forall_forall in IH.
    split; intros [H|[c [H1 H2]]]; auto; right; exists c;
      (split; [exact H1|]); [rewrite <- (IH c H1 2%nat 4%nat h')|
                             rewrite (IH c H1 2%nat 4%nat h')]; auto.
Qed.

Lemma shape_ok_h_pos lo hi h t : shape_ok lo hi h t = true -> (1 <= h)%nat.
Proof.
  destruct t as [es cs]. rewrite shape_ok_iff.
  intros [_ [[_ ->]|[_ [_ [h' [-> _]]]]]]; lia.
Qed.

Lemma leaf_depths_shape : forall t lo hi h d,
  shape_ok lo hi h t = true -> In d (leaf_depths t) -> d = (h - 1)%nat.
Proof.
  intro t; induction t as [es cs IH] using bnode_ind'.
  intros lo hi h d Hsh Hd. apply shape_ok_iff in Hsh as [_ [[-> ->]|[Hne [_ [h' [-> Hch]]]]]].
  - simpl in Hd. destruct Hd as [<-|[]]. reflexivity.
  - assert (Hd' : exists c, In c cs /\ In d (map S (leaf_depths c))).
    { destruct cs as [|c0 cs0]; [congruence|]. simpl in Hd.
      apply in_app_or in Hd as [Hd|Hd]; [exists c0; simpl; auto|].
      apply in_flat_map in Hd as [c [H1 H2]]. exists c; simpl; auto. }
    destruct Hd' as [c [Hc Hd2]]. apply in_map_iff in Hd2 as [d' [<- Hd']].
    rewrite Forall_forall in IH.
    rewrite (IH c Hc 2%nat 4%nat h' d' (Hch c Hc) Hd').
    pose proof (shape_ok_h_pos _ _ _ _ (Hch c Hc)). lia.
Qed.

Lemma subtrees_shape : forall t lo hi h N,
  shape_ok lo hi h t = true -> In N (subtrees t) ->
  N = t \/ exists h', shape_ok 2 4 h' N = true.
Proof.
  intro t; induction t as [es cs IH] using bnode_ind'.
  intros lo hi h N Hsh HN. simpl in HN. destruct HN as [<-|HN]; [auto|].
  apply in_flat_map in HN as [c [Hc HN]]. right.
  apply shape_ok_iff in Hsh as [_ [[-> _]|[_ [_ [h' [_ Hch]]]]]]; [destruct Hc|].
  rewrite Forall_forall in IH.
  destruct (IH c Hc 2%nat 4%nat h' N (Hch c Hc) HN) as [->|H]; eauto.
Qed.

Lemma subtrees_inorder : forall t lo hi h N,
  shape_ok lo hi h t = true -> In N (subtrees t) ->
  exists A B, inorder t = A ++ inorder N ++ B.
Proof.
  intro t; induction t as [es cs IH] using bnode_ind'.
  intros lo hi h N Hsh HN. simpl in HN. destruct HN as [<-|HN].
  - exists [], []. rewrite app_nil_r. reflexivity.
  - apply in_flat_map in HN as [c [Hc HN]].
    apply shape_ok_iff in Hsh as [_ [[-> _]|[_ [Hl [h' [_ Hch]]]]]]; [destruct Hc|].
    rewrite Forall_forall in IH.
    destruct (IH c Hc 2%nat 4%nat h' N (Hch c Hc) HN) as [A [B HAB]].
    apply In_nth_error in Hc as [p Hp].
    assert (Hpc : (p < length cs)%nat) by (apply nth_error_Some; congruence).
    rewrite (inorder_decomp es cs p c ltac:(lia) Hp), HAB.
    exists (interleave_pre inorder (firstn p es) (firstn p cs) ++ A),
      (B ++ from_key inorder (skipn p es) (skipn (S p) cs)).
    rewrite <- !app_assoc. reflexivity.
Qed.

Lemma SS_mid (A L B : list Z) :
  StronglySorted Z.lt (A ++ L ++ B) -> StronglySorted Z.lt L.
Proof.
  intros H. apply SS_app_inv in H as [_ [H _]]. apply SS_app_inv in H as [H _].
  exact H.
Qed.

Lemma separated_of_sorted lo hi h es cs :
  shape_ok lo hi h (BNode es cs) = true ->
  StronglySorted Z.lt (inorder (BNode es cs)) ->
  children_separated (BNode es cs).
Proof.
  intros Hsh Hs i e He. simpl in He.
  assert (Hi : (i < length es)%nat) by (apply nth_error_Some; congruence).
  assert (He' : nth i es 0 = e) by (apply nth_error_nth; exact He).
  pose proof Hsh as Hsh'.
  apply shape_ok_iff in Hsh' as [_ [[-> _]|[_ [Hl [h' [_ Hch]]]]]].
  { split; intros c Hc; destruct i; discriminate. }
  split; intros c Hc k Hk; cbn [children] in Hc;
    pose proof (nth_error_In _ _ Hc) as Hcin;
    rewrite (node_keys_inorder c 2 4 h' k (Hch c Hcin)) in Hk.
  - rewrite (inorder_decomp es cs i c ltac:(lia) Hc) in Hs.
    rewrite (skipn_nth_cons es i 0 Hi), He' in Hs. simpl in Hs.
    apply SS_app_inv in Hs as [_ [Hs _]]. apply SS_app_inv in Hs as [_ [_ Hs]].
    apply Hs; simpl; auto.
  - rewrite (inorder_decomp es cs (S i) c ltac:(lia) Hc) in Hs.
    destruct (interleave_pre_last inorder es cs (S i) ltac:(lia) ltac:(lia)
                ltac:(lia)) as [pre Hpre].
    rewrite Hpre in Hs. replace (S i - 1)%nat with i in Hs by lia.
    rewrite He' in Hs.
    apply SS_app_inv in Hs as [_ [_ Hs]]. apply Hs.
    + apply in_or_app. right. simpl. auto.
    + apply in_or_app. left. exact Hk.
Qed.

Lemma tree_ok_invariants t :
  tree_ok t -> bt_invariants t.
Proof.
  destruct t as [[r|] sz]; unfold tree_ok, bt_invariants; simpl; [|auto].
  intros [[h Hsh] [Hs _]]. split; [|split; [|split]].
  - intros [es cs] HN.
    destruct (subtrees_inorder r 1 4 h _ Hsh HN) as [A [B HAB]].
    assert (HsN : StronglySorted Z.lt (inorder (BNode es cs)))
      by (rewrite HAB in Hs; exact (SS_mid _ _ _ Hs)).
    assert (HshN : exists lo h', shape_ok lo 4 h' (BNode es cs) = true).
    { destruct (subtrees_shape r 1 4 h _ Hsh HN) as [<-|[h' H]]; eauto. }
    destruct HshN as [lo [h' HshN]].
    split; [|split].
    + exact (SS_interleave_es inorder es cs HsN).
    + exact (separated_of_sorted lo 4 h' es cs HshN HsN).
    + unfold child_slots_ok. simpl.
      apply shape_ok_iff in HshN as [_ [[-> _]|[_ [Hl _]]]]; auto.
  - exists (h - 1)%nat. intros d Hd. exact (leaf_depths_shape r 1 4 h d Hsh Hd).
  - destruct r as [es cs]. apply shape_ok_iff in Hsh as [Hb _]. simpl.
    unfold BT_FACTOR. lia.
  - intros c N Hc HN. destruct r as [es cs].
    apply shape_ok_iff in Hsh as [_ [[-> _]|[_ [_ [h' [_ Hch]]]]]]; [destruct Hc|].
    simpl in Hc.
    destruct (subtrees_shape c 2 4 h' N (Hch c Hc) HN) as [->|[h2 H]].
    + pose proof (Hch c Hc) as H. destruct c as [ces ccs].
      apply shape_ok_iff in H as [Hb _]. simpl. unfold BT_FACTOR. lia.
    + destruct N as [nes ncs]. apply shape_ok_iff in H as [Hb _]. simpl.
      unfold BT_FACTOR. lia.
Qed.

(** ** Lookup from the invariants of the spec *)

Lemma subtrees_child es cs c N :
  In c cs -> In N (subtrees c) -> In N (subtrees (BNode es cs)).
Proof. intros Hc HN. simpl. right. apply in_flat_map. eauto. Qed.

Lemma subtrees_self t : In t (subtrees t).
Proof. destruct t; simpl; auto. Qed.

Lemma node_lookup_inv : forall N x,
  (forall M, In M (subtrees N) ->
     keys_increasing M /\ children_separated M /\ child_slots_ok M /\
     elems M <> []) ->
  bt_lookup_node N x =
  if in_dec Z.eq_dec x (node_keys N) then Some x else None.
Proof.
  intro N; induction N as [es cs IH] using bnode_ind'.
  intros x Hall. rewrite bt_lookup_node_eq. cbv zeta.
  destruct (Hall _ (subtrees_self _)) as [Hes [Hsep [Hslot Hne]]].
  unfold keys_increasing, child_slots_ok in *; cbn [elems children] in *.
  destruct (bt_node_bsearch_spec es x Hes Hne)
    as [[H1 [H2 H3]]|[H1 [H2 [H3 H4]]]];
    set (r := bt_node_bsearch (length es) es x) in *.
  - destruct (Z.leb_spec 0 r) as [_|?]; [|lia].
    destruct (in_dec Z.eq_dec x (node_keys (BNode es cs))) as [_|Hn];
      [now rewrite H3|].
    exfalso. apply Hn. simpl. apply in_or_app. left. rewrite <- H3.
    apply nth_In; auto.
  - destruct (Z.leb_spec 0 r) as [?|_]; [lia|].
    set (p := Z.to_nat (- r - 1)) in *.
    pose proof (not_found_not_in es p x H3 H4) as Hnes.
    destruct (nth_error cs p) as [c|] eqn:Hc.
    + assert (Hcin : In c cs) by (eapply nth_error_In; eauto).
      rewrite Forall_forall in IH.
      rewrite (IH c Hcin x (fun M HM => Hall M (subtrees_child es cs c M Hcin HM))).
      destruct (in_dec Z.eq_dec x (node_keys c)) as [Hx|Hx];
        destruct (in_dec Z.eq_dec x (node_keys (BNode es cs))) as [Hy|Hy];
        try reflexivity.
      * exfalso. apply Hy. simpl. apply in_or_app. right.
        apply in_flat_map. eauto.
      * exfalso. simpl in Hy. apply in_app_or in Hy as [Hy|Hy]; [auto|].
        apply in_flat_map in Hy as [c' [Hc' Hy]].
        destruct Hslot as [->|Hl]; [destruct Hc'|].
        apply In_nth_error in Hc' as [j Hj].
        assert (Hjl : (j < length cs)%nat) by (apply nth_error_Some; congruence).
        destruct (Nat.lt_total j p) as [Hlt|[Heq|Hgt]].
        -- destruct (nth_error es j) as [e|] eqn:He;
             [|apply nth_error_None in He; lia].
           destruct (Hsep j e He) as [Hs _].
           pose proof (Hs c' Hj x Hy). specialize (H3 j Hlt).
           rewrite (nth_error_nth es j 0 He) in H3. lia.
        -- subst j. rewrite Hc in Hj. injection Hj as ->. auto.
        -- destruct j as [|i]; [lia|].
           destruct (nth_error es i) as [e|] eqn:He;
             [|apply nth_error_None in He; lia].
           destruct (Hsep i e He) as [_ Hs].
           pose proof (Hs c' Hj x Hy). specialize (H4 i ltac:(lia)).
           rewrite (nth_error_nth es i 0 He) in H4. lia.
    + destruct (in_dec Z.eq_dec x (node_keys (BNode es cs))) as [Hy|_];
        [|reflexivity].
      exfalso. destruct Hslot as [->|Hl].
      * simpl in Hy. rewrite app_nil_r in Hy. auto.
      * apply nth_error_None in Hc. lia.
Qed.

Lemma tree_ok_nonempty t : tree_ok t -> nodes_nonempty t.
Proof.
  destruct t as [[r|] sz]; unfold tree_ok, nodes_nonempty; simpl; [|auto].
  intros [[h Hsh] _] N HN.
  destruct (subtrees_shape r 1 4 h N Hsh HN) as [->|[h' H]];
    [destruct r as [es cs]|destruct N as [es cs]];
    [apply shape_ok_iff in Hsh as [Hb _]|apply shape_ok_iff in H as [Hb _]];
    simpl; intros ->; simpl in Hb; lia.
Qed.

Lemma tree_ok_keys t k : tree_ok t -> In k (bt_keys t) <-> In k (bt_elems t).
Proof.
  destruct t as [[r|] sz]; unfold tree_ok, bt_keys, bt_elems; simpl; [|tauto].
  intros [[h Hsh] _]. exact (node_keys_inorder r 1 4 h k Hsh).
Qed.

(** Replacement keeps the key count of the node written to; a child
    that reports a replacement is therefore never split. *)
Lemma node_insert_frame : forall t x prev rep pv t',
  (forall N, In N (subtrees t) -> (length (elems N) <= 2 * BT_FACTOR)%nat) ->
  bt_node_insert t x prev = (rep, pv, t') ->
  (rep = false -> pv = prev) /\
  (rep = true -> length (elems t') = length (elems t)).
Proof.
  intro t; induction t as [es cs IH] using bnode_ind'.
  intros x prev rep pv t' Hall Hins.
  rewrite bt_node_insert_eq in Hins. cbv zeta in Hins.
  destruct (0 <=? bt_node_bsearch (length es) es x).
  - injection Hins as <- <- <-. split; [discriminate|].
    intros _. simpl. apply length_upd_nth_any.
  - destruct (nth_error cs _) as [c|] eqn:Hc.
    + assert (Hcin : In c cs) by (eapply nth_error_In; eauto).
      destruct (bt_node_insert c x prev) as [[rep1 pv1] c'] eqn:Ec.
      rewrite Forall_forall in IH.
      destruct (IH c Hcin x prev rep1 pv1 c'
                  (fun N HN => Hall N (subtrees_child es cs c N Hcin HN)) Ec)
        as [Hf Ht].
      pose proof (Hall c (subtrees_child es cs c c Hcin (subtrees_self c))) as Hc4.
      destruct (Nat.leb_spec (length (elems c')) (2 * BT_FACTOR)).
      * injection Hins as <- <- <-. split; [exact Hf|reflexivity].
      * destruct (bt_split_node _ _) as [m cs2].
        injection Hins as <- <- <-. split; [|discriminate].
        intros _. destruct rep1; [|auto].
        specialize (Ht eq_refl). lia.
    + injection Hins as <- <- <-. split; [reflexivity|discriminate].
Qed.

Lemma invariants_small t : bt_invariants t ->
  match root t with
  | None => True
  | Some r => forall N, In N (subtrees r) -> (length (elems N) <= 2 * BT_FACTOR)%nat
  end.
Proof.
  destruct t as [[[es cs]|] sz]; unfold bt_invariants; simpl; [|auto].
  intros [_ [_ [Hr Hc]]] N [<-|HN]; [exact Hr|].
  apply in_flat_map in HN as [c [H1 H2]]. apply (Hc c N H1 H2).
Qed.

Lemma reachable_size t : reachable t -> size t = 0%nat.
Proof.
  induction 1 as [|t x prev Ht IH Hx]; [reflexivity|].
  unfold bt_insert. destruct (root t) as [r|]; simpl; [|exact IH].
  destruct (bt_node_insert r x prev) as [[rep pv] r'].
  destruct (length (elems r') <=? 4)%nat; [exact IH|].
  destruct (bt_split_node [r'] 0). exact IH.
Qed.

Lemma reachable_fold xs : forall t,
  reachable t -> Forall is_int xs -> reachable (fold_left bt_insert_tree xs t).
Proof.
  induction xs as [|x xs IH]; intros t Ht Hall; [exact Ht|].
  inversion Hall; subst. simpl. apply IH; [|assumption].
  pose proof (reach_insert t x None Ht ltac:(assumption)) as H.
  unfold bt_insert_tree. destruct (bt_insert t x None) as [[a b] t'].
  exact H.
Qed.

Lemma reachable_build xs : Forall is_int xs -> reachable (bt_build xs).
Proof. apply reachable_fold. exact reach_mk. Qed.

(** ** The iterator *)

Lemma sumw_cons c l : sumw (c :: l) = (S (node_weight c) + sumw l)%nat.
Proof. reflexivity. Qed.

Lemma sumw_skipn_S l : forall k, (sumw (skipn (S k) l) <= sumw (skipn k l))%nat.
Proof.
  induction l as [|c l IH]; intros [|k].
  - simpl. lia.
  - simpl. lia.
  - change (sumw l <= sumw (c :: l))%nat. rewrite sumw_cons. lia.
  - change (sumw (skipn (S k) l) <= sumw (skipn k l))%nat. apply IH.
Qed.

Lemma sumw_skipn_le l : forall k, (sumw (skipn k l) <= sumw l)%nat.
Proof.
  induction l as [|c l IH]; intros [|k]; try (simpl; lia).
  change (sumw (skipn k l) <= sumw (c :: l))%nat.
  specialize (IH k). rewrite sumw_cons. lia.
Qed.

Lemma sumw_skipn_nth l : forall k c, nth_error l k = Some c ->
  sumw (skipn k l) = (S (node_weight c) + sumw (skipn (S k) l))%nat.
Proof.
  induction l as [|d l IH]; intros [|k] c H; simpl in *; try discriminate.
  - injection H as ->. reflexivity.
  - apply IH. exact H.
Qed.

Lemma height_child es cs c : In c cs -> (height c < height (BNode es cs))%nat.
Proof.
  intros Hc. simpl.
  assert (H : Forall (fun k => k <= list_max (map height cs))%nat (map height cs))
    by (apply list_max_le; lia).
  rewrite Forall_forall in H. specialize (H (height c) (in_map _ _ _ Hc)). lia.
Qed.

Lemma height_pos t : (1 <= height t)%nat.
Proof. destruct t; simpl; lia. Qed.

Lemma slots_all_child es cs c :
  slots_all (BNode es cs) -> In c cs -> slots_all c.
Proof.
  intros H Hc M HM. apply H. exact (subtrees_child es cs c M Hc HM).
Qed.

Lemma from_child_0 c : from_child c 0 = inorder c.
Proof. destruct c as [es cs]. unfold from_child. simpl. reflexivity. Qed.

Lemma node_weight_eq es cs :
  node_weight (BNode es cs) = (length es + 2 + sumw cs)%nat.
Proof. reflexivity. Qed.

Lemma iter_rest_cons v f below :
  iter_rest v (f :: below) = frame_rest_top v f ++ flat_map frame_rest_below below.
Proof. reflexivity. Qed.

Lemma iter_measure_cons v f below :
  iter_measure v (f :: below) =
  (top_m v f + fold_right (fun f acc => below_m f + acc) 0 below)%nat.
Proof. reflexivity. Qed.

Lemma nonbottom_cons f below :
  below <> [] -> nonbottom_some (f :: below) -> fr_node f <> None /\ nonbottom_some below.
Proof. destruct below; [congruence|]. simpl. auto. Qed.

Lemma nonbottom_push f st :
  fr_node f <> None -> st <> [] -> nonbottom_some st -> nonbottom_some (f :: st).
Proof. destruct st; [congruence|]. simpl. auto. Qed.

Lemma nonbottom_same i j N below :
  nonbottom_some ({| fr_i := i; fr_node := Some N |} :: below) ->
  nonbottom_some ({| fr_i := j; fr_node := Some N |} :: below).
Proof. destruct below; simpl; [auto|]. intros [_ H]. split; [discriminate|exact H]. Qed.

Lemma inv_set_i H i j N below :
  iter_inv H ({| fr_i := i; fr_node := Some N |} :: below) ->
  (j <= S (length (elems N)))%nat ->
  iter_inv H ({| fr_i := j; fr_node := Some N |} :: below).
Proof.
  intros [_ [Hfr [Hnb [Hd HH]]]] Hj.
  inversion Hfr as [|? ? Hf0 Hfr']; subst. destruct Hf0 as [_ Hsl].
  split; [discriminate|]. split; [constructor; [split; assumption|exact Hfr']|].
  split; [exact (nonbottom_same i j N below Hnb)|]. split; [exact Hd|exact HH].
Qed.

Lemma from_child_push es cs i c :
  (i <= length es)%nat -> nth_error cs i = Some c ->
  from_child (BNode es cs) i = inorder c ++ from_key_at (BNode es cs) i.
Proof.
  intros Hi Hc. unfold from_child, from_key_at. cbn [elems children].
  destruct (Nat.ltb_spec (length es) i); [lia|].
  assert (Hl : (i < length cs)%nat) by (apply nth_error_Some; congruence).
  rewrite (skipn_nth_cons cs i c Hl). rewrite (nth_error_nth cs i c Hc).
  apply interleave_cons.
Qed.

Lemma from_key_at_yield es cs i :
  (i < length es)%nat ->
  from_key_at (BNode es cs) i = nth i es 0 :: from_child (BNode es cs) (S i).
Proof.
  intros Hi. unfold from_child, from_key_at. cbn [elems children].
  rewrite (skipn_nth_cons es i 0 Hi).
  destruct (Nat.ltb_spec (length es) (S i)); [lia|]. reflexivity.
Qed.

Lemma interleave_nil_r f es : interleave f es [] = es.
Proof. reflexivity. Qed.

Lemma from_child_leaf_yield es i :
  (i < length es)%nat ->
  from_child (BNode es []) i = nth i es 0 :: from_child (BNode es []) (S i).
Proof.
  intros Hi. unfold from_child. cbn [elems children].
  destruct (Nat.ltb_spec (length es) i); [lia|].
  destruct (Nat.ltb_spec (length es) (S i)); [lia|].
  rewrite !skipn_nil, !interleave_nil_r. apply skipn_nth_cons. exact Hi.
Qed.

Lemma from_key_at_end es cs i :
  (length es <= i)%nat -> from_key_at (BNode es cs) i = [].
Proof.
  intros Hi. unfold from_key_at. cbn [elems children].
  rewrite skipn_all2 by lia. reflexivity.
Qed.

Lemma from_child_leaf_end es i :
  (length es <= i)%nat -> from_child (BNode es []) i = [].
Proof.
  intros Hi. unfold from_child. cbn [elems children].
  destruct (length es <? i)%nat; [reflexivity|].
  rewrite skipn_nil, skipn_all2 by lia. reflexivity.
Qed.

Lemma top_m_node c : top_m false {| fr_i := 0; fr_node := Some c |} = node_weight c.
Proof.
  destruct c as [es cs]. unfold top_m. cbn [fr_i fr_node elems children skipn].
  rewrite node_weight_eq. lia.
Qed.

Lemma iter_step_inv H v st :
  iter_inv H st ->
  match iter_step v st with
  | SContinue v' st' =>
      iter_inv H st' /\ iter_rest v st = iter_rest v' st' /\
      (iter_measure v' st' < iter_measure v st)%nat
  | SYield x st' => iter_inv H st' /\ iter_rest v st = x :: iter_rest false st'
  | SNone st' => st' = st /\ iter_rest v st = [] /\
      forall v', iter_step v' st = SNone st
  | SFault => False
  end.
Proof.
  intros Hinv. pose proof Hinv as [Hne [Hfr [Hnb [Hd HH]]]].
  destruct st as [|[i [N|]] below]; [congruence| |].
  2: { cbn [iter_step]. split; [reflexivity|]. split; [|reflexivity].
       destruct below as [|f below]; [reflexivity|].
       exfalso. simpl in Hnb. destruct Hnb as [Hn _]. apply Hn; reflexivity. }
  destruct N as [es cs].
  inversion Hfr as [|? ? Hf0 Hfr']; subst. destruct Hf0 as [Hi Hsl].
  cbn [fr_i fr_node elems] in Hi.
  cbn [depth_ok fr_node] in Hd. destruct Hd as [Hd Hd'].
  assert (Hslot : cs = [] \/ length cs = S (length es))
    by exact (Hsl _ (subtrees_self _)).
  unfold iter_step. cbn [elems children fr_i fr_node].
  destruct (Nat.ltb_spec (length es) i) as [Hlt|Hle].
  - assert (Hr : frame_rest_top v {| fr_i := i; fr_node := Some (BNode es cs) |} = []).
    { unfold frame_rest_top, from_child, from_key_at. cbn [fr_i fr_node elems children].
      destruct v.
      - rewrite skipn_all2 by lia. reflexivity.
      - destruct (Nat.ltb_spec (length es) i); [reflexivity|lia]. }
    destruct below as [|f2 below].
    + split; [reflexivity|]. split.
      * rewrite iter_rest_cons, Hr. reflexivity.
      * intros v'. unfold iter_step. cbn [elems children fr_i fr_node].
        destruct (Nat.ltb_spec (length es) i); [reflexivity|lia].
    + split; [|split].
      * split; [discriminate|]. split; [exact Hfr'|].
        split; [exact (proj2 (nonbottom_cons _ (f2 :: below) ltac:(discriminate) Hnb))|].
        split; [exact Hd'|exact HH].
      * rewrite !iter_rest_cons, Hr. reflexivity.
      * rewrite !iter_measure_cons.
        assert (Hm : (1 <= top_m v {| fr_i := i; fr_node := Some (BNode es cs) |})%nat)
          by (unfold top_m; cbn [fr_i fr_node elems]; lia).
        cbn [fold_right]. unfold below_m. lia.
  - destruct (nth_error cs i) as [c|] eqn:Hc.
    + assert (Hcin : In c cs) by (eapply nth_error_In; eauto).
      destruct v; cbn [negb].
      * destruct (Nat.ltb_spec i (length es)) as [Hlt|Hge].
        -- split; [apply (inv_set_i H i); [exact Hinv|cbn [elems]; lia]|].
           rewrite !iter_rest_cons. unfold frame_rest_top. cbn [fr_i fr_node].
           rewrite (from_key_at_yield es cs i Hlt). reflexivity.
        -- split; [apply (inv_set_i H i); [exact Hinv|cbn [elems]; lia]|]. split.
           ++ rewrite !iter_rest_cons. unfold frame_rest_top. cbn [fr_i fr_node].
              rewrite !from_key_at_end by lia. reflexivity.
           ++ rewrite !iter_measure_cons. unfold top_m. cbn [fr_i fr_node elems children].
              pose proof (sumw_skipn_S cs (S i)). lia.
      * destruct (Nat.ltb_spec (length ({| fr_i := i; fr_node := Some (BNode es cs) |}
                                        :: below)) BT_ITER_STACK_SIZE) as [Hsp|Hsp].
        -- split; [|split].
           ++ split; [discriminate|]. split.
              ** constructor; [|exact Hfr]. split; [cbn; lia|].
                 exact (slots_all_child es cs c Hsl Hcin).
              ** split; [apply nonbottom_push; [discriminate|discriminate|exact Hnb]|].
                 split; [|exact HH]. split; [|split; [exact Hd|exact Hd']].
                 cbn [fr_node length]. pose proof (height_child es cs c Hcin).
                 cbn [length] in Hd. lia.
           ++ rewrite !iter_rest_cons. unfold frame_rest_top at 1 2.
              cbn [fr_i fr_node]. rewrite from_child_0, (from_child_push es cs i c Hle Hc).
              cbn [flat_map]. unfold frame_rest_below at 1. cbn [fr_i fr_node].
              rewrite app_assoc. reflexivity.
           ++ rewrite !iter_measure_cons. rewrite top_m_node. cbn [fold_right].
              unfold below_m, top_m. cbn [fr_i fr_node elems children].
              rewrite (sumw_skipn_nth cs i c Hc). lia.
        -- pose proof (height_child es cs c Hcin). pose proof (height_pos c).
           cbn [length] in Hsp. unfold BT_ITER_STACK_SIZE in *. lia.
    + assert (Hcs : cs = []).
      { destruct Hslot as [->|Hl]; [reflexivity|].
        apply nth_error_None in Hc. lia. }
      subst cs.
      destruct (Nat.ltb_spec i (length es)) as [Hlt|Hge].
      * split; [apply (inv_set_i H i); [exact Hinv|cbn [elems]; lia]|].
        rewrite !iter_rest_cons. unfold frame_rest_top. cbn [fr_i fr_node].
        destruct v.
        -- rewrite (from_key_at_yield es [] i Hlt). reflexivity.
        -- rewrite (from_child_leaf_yield es i Hlt). reflexivity.
      * split; [apply (inv_set_i H i); [exact Hinv|cbn [elems]; lia]|]. split.
        -- rewrite !iter_rest_cons. unfold frame_rest_top. cbn [fr_i fr_node].
           destruct v.
           ++ rewrite !from_key_at_end by lia. reflexivity.
           ++ rewrite !from_child_leaf_end by lia. reflexivity.
        -- rewrite !iter_measure_cons. unfold top_m. cbn [fr_i fr_node elems children].
           rewrite !skipn_nil. lia.
Qed.

Lemma iter_loop_inv H : forall f v st,
  iter_inv H st -> (iter_measure v st < f)%nat ->
  match iter_loop f v st with
  | IterYield x st' => iter_inv H st' /\ iter_rest v st = x :: iter_rest false st'
  | IterNone st' => iter_rest v st = []
  | _ => False
  end.
Proof.
  induction f as [|f IH]; intros v st Hinv Hm; [lia|].
  cbn [iter_loop]. pose proof (iter_step_inv H v st Hinv) as Hs.
  destruct (iter_step v st) as [v' st'|x st'|st'|]; try tauto.
  - destruct Hs as [Hinv' [Hr Hm']].
    specialize (IH v' st' Hinv' ltac:(lia)).
    destruct (iter_loop f v' st'); try tauto.
    + destruct IH as [? E]. rewrite Hr. auto.
    + rewrite Hr. exact IH.
Qed.

Lemma top_m_le v f : (top_m v f <= frame_weight f)%nat.
Proof.
  destruct f as [i [[es cs]|]]; unfold top_m, frame_weight; cbn [fr_i fr_node elems children];
    [|lia].
  rewrite node_weight_eq.
  pose proof (sumw_skipn_le cs (if v then S i else i)). lia.
Qed.

Lemma measure_fuel v st : (iter_measure v st < iter_fuel st)%nat.
Proof.
  destruct st as [|f below]; unfold iter_fuel; cbn [iter_measure fold_right]; [lia|].
  pose proof (top_m_le v f).
  assert (forall l, fold_right (fun f acc => below_m f + acc) 0 l <=
                    fold_right (fun f acc => frame_weight f + acc) 0 l)%nat.
  { induction l as [|g l IH]; cbn [fold_right]; [lia|].
    assert (below_m g <= frame_weight g)%nat by apply top_m_le. lia. }
  specialize (H0 below). lia.
Qed.

Lemma iter_outputs_S k st :
  iter_outputs (S k) st =
  match bt_iter_dfs_next st with
  | IterYield x st' => option_map (cons (Some x)) (iter_outputs k st')
  | IterNone st' => option_map (cons None) (iter_outputs k st')
  | _ => None
  end.
Proof. reflexivity. Qed.

Lemma iter_outputs_rest H : forall n st,
  iter_inv H st -> length (iter_rest false st) = n ->
  iter_outputs (S n) st = Some (map Some (iter_rest false st) ++ [None]).
Proof.
  induction n as [|n IH]; intros st Hinv Hl;
    rewrite iter_outputs_S; unfold bt_iter_dfs_next;
    pose proof (iter_loop_inv H (iter_fuel st) false st Hinv (measure_fuel false st)) as Hs;
    destruct (iter_loop (iter_fuel st) false st) as [x st'|st'| |]; try tauto.
  - destruct Hs as [_ E]. rewrite E in Hl. discriminate.
  - rewrite Hs. reflexivity.
  - destruct Hs as [Hinv' E]. rewrite E in Hl |- *. cbn [length] in Hl.
    rewrite (IH st' Hinv' ltac:(lia)). reflexivity.
  - rewrite Hs in Hl. discriminate.
Qed.

(** ** An exhausted iterator stays exhausted *)

Lemma iter_step_none v st st' :
  iter_step v st = SNone st' -> st' = st /\ forall v', iter_step v' st = SNone st.
Proof.
  destruct st as [|[i [N|]] below]; cbn [iter_step]; [discriminate| |].
  - destruct (length (elems N) <? i)%nat.
    + destruct below; [|discriminate]. intros E; injection E as <-. auto.
    + destruct (nth_error (children N) i); [destruct v, (length _ <? _)%nat|];
        destruct (i <? length (elems N))%nat; discriminate.
  - intros E; injection E as <-. auto.
Qed.

Lemma iter_loop_none : forall f v st st',
  iter_loop f v st = IterNone st' -> forall v', iter_step v' st' = SNone st'.
Proof.
  induction f as [|f IH]; intros v st st' E; [discriminate|].
  cbn [iter_loop] in E. destruct (iter_step v st) as [v1 st1|x st1|st1|] eqn:S1;
    try discriminate.
  - exact (IH v1 st1 st' E).
  - injection E as <-. apply iter_step_none in S1 as [-> H]. exact H.
Qed.

Lemma iter_outputs_none_sticky st : forall k,
  (forall v', iter_step v' st = SNone st) -> iter_outputs k st = Some (repeat None k).
Proof.
  intros k Hs. induction k as [|k IH]; [reflexivity|].
  rewrite iter_outputs_S. unfold bt_iter_dfs_next.
  unfold iter_fuel. cbn [iter_loop]. rewrite Hs. rewrite IH. reflexivity.
Qed.

(** ** Height of a reachable tree *)

Lemma interleave_perm f es cs :
  length cs = S (length es) ->
  Permutation (interleave f es cs) (es ++ flat_map f cs).
Proof.
  revert cs; induction es as [|e es IH]; intros [|c cs] Hl; cbn [length] in Hl;
    try discriminate.
  - destruct cs; [|discriminate]. simpl. rewrite app_nil_r. reflexivity.
  - rewrite interleave_cons_cons. cbn [flat_map app].
    rewrite (IH cs ltac:(lia)).
    etransitivity; [apply Permutation_sym, Permutation_middle|].
    cbn [app]. apply perm_skip. rewrite !app_assoc. apply Permutation_app_tail.
    apply Permutation_app_comm.
Qed.

Lemma node_keys_perm : forall t lo hi h,
  shape_ok lo hi h t = true -> Permutation (inorder t) (node_keys t).
Proof.
  intro t; induction t as [es cs IH] using bnode_ind'.
  intros lo hi h Hsh. apply shape_ok_iff in Hsh as [_ [[-> _]|[_ [Hl [h' [_ Hch]]]]]].
  - simpl. rewrite app_nil_r. reflexivity.
  - cbn [inorder node_keys]. rewrite (interleave_perm inorder es cs Hl).
    apply Permutation_app_head.
    rewrite Forall_forall in IH.
    assert (Hcs : forall c, In c cs -> Permutation (inorder c) (node_keys c))
      by (intros c Hc; exact (IH c Hc 2%nat 4%nat h' (Hch c Hc))).
    clear IH Hch Hl. induction cs as [|c cs IHc]; [reflexivity|].
    cbn [flat_map]. apply Permutation_app; [apply Hcs; left; reflexivity|].
    apply IHc. intros d Hd. apply Hcs. right. exact Hd.
Qed.

Lemma shape_height : forall t lo hi h,
  shape_ok lo hi h t = true -> height t = h.
Proof.
  intro t; induction t as [es cs IH] using bnode_ind'.
  intros lo hi h Hsh. apply shape_ok_iff in Hsh as [_ [[-> ->]|[Hne [_ [h' [-> Hch]]]]]].
  - reflexivity.
  - cbn [height]. f_equal. rewrite Forall_forall in IH.
    assert (Hh : forall c, In c cs -> height c = h')
      by (intros c Hc; exact (IH c Hc 2%nat 4%nat h' (Hch c Hc))).
    clear IH Hch. destruct cs as [|c cs]; [congruence|]. clear Hne.
    revert c Hh. induction cs as [|d cs IHc]; intros c Hh.
    + simpl. rewrite (Hh c (or_introl eq_refl)). lia.
    + change (list_max (map height (c :: d :: cs)))
        with (Nat.max (height c) (list_max (map height (d :: cs)))).
      rewrite (IHc d) by (intros e He; apply Hh; right; exact He).
      rewrite (Hh c (or_introl eq_refl)). lia.
Qed.

Lemma length_inorder_children es cs c1 c2 rest :
  cs = c1 :: c2 :: rest -> length cs = S (length es) ->
  (length (inorder c1) + length (inorder c2) <= length (inorder (BNode es cs)))%nat.
Proof.
  intros -> Hl. cbn [inorder].
  rewrite (Permutation_length (interleave_perm inorder es _ Hl)).
  cbn [flat_map]. rewrite !length_app. lia.
Qed.

Lemma count_nonroot : forall t hi h,
  shape_ok 2 hi h t = true -> (2 ^ h <= length (inorder t))%nat.
Proof.
  intro t; induction t as [es cs IH] using bnode_ind'.
  intros hi h Hsh. apply shape_ok_iff in Hsh as [Hb [[-> ->]|[Hne [Hl [h' [-> Hch]]]]]].
  - simpl. lia.
  - rewrite Forall_forall in IH.
    destruct cs as [|c1 [|c2 rest]]; cbn [length] in Hl; try lia.
    pose proof (length_inorder_children es _ c1 c2 rest eq_refl Hl).
    pose proof (IH c1 (or_introl eq_refl) 4%nat h' (Hch c1 (or_introl eq_refl))).
    pose proof (IH c2 (or_intror (or_introl eq_refl)) 4%nat h'
                  (Hch c2 (or_intror (or_introl eq_refl)))).
    rewrite Nat.pow_succ_r'. lia.
Qed.

Lemma count_root t hi h :
  shape_ok 1 hi h t = true -> h = 1%nat \/ (2 ^ h <= length (inorder t))%nat.
Proof.
  destruct t as [es cs]. intros Hsh. pose proof Hsh as Hsh'.
  apply shape_ok_iff in Hsh' as [Hb [[-> ->]|[Hne [Hl [h' [-> Hch]]]]]]; [auto|right].
  destruct cs as [|c1 [|c2 rest]]; cbn [length] in Hl; try lia.
  pose proof (length_inorder_children es _ c1 c2 rest eq_refl Hl).
  pose proof (count_nonroot c1 4%nat h' (Hch c1 (or_introl eq_refl))).
  pose proof (count_nonroot c2 4%nat h' (Hch c2 (or_intror (or_introl eq_refl)))).
  rewrite Nat.pow_succ_r'. lia.
Qed.

Lemma sorted_range_length l : forall a b,
  StronglySorted Z.lt l -> (forall x, In x l -> a <= x < b) ->
  Z.of_nat (length l) <= Z.max 0 (b - a).
Proof.
  induction l as [|x l IH]; intros a b Hs Hr; [simpl; lia|].
  apply StronglySorted_inv in Hs as [Hs Hx]. rewrite Forall_forall in Hx.
  assert (Hxr : a <= x < b) by (apply Hr; left; reflexivity).
  assert (H1 : Z.of_nat (length l) <= Z.max 0 (b - (x + 1))).
  { apply IH; [exact Hs|]. intros y Hy. specialize (Hx y Hy).
    specialize (Hr y (or_intror Hy)). lia. }
  cbn [length]. lia.
Qed.

Lemma tree_ok_height t r : tree_ok t -> root t = Some r -> (height r <= 32)%nat.
Proof.
  destruct t as [r0 sz]. unfold tree_ok. cbn [root]. intros Hok ->.
  destruct Hok as [[h Hsh] [Hs Hi]].
  rewrite (shape_height r 1 4 h Hsh).
  destruct (count_root r 4 h Hsh) as [->|Hc]; [lia|].
  assert (Hl : Z.of_nat (length (inorder r)) <= Z.max 0 (2 ^ 31 - - 2 ^ 31)).
  { apply sorted_range_length; [exact Hs|]. intros x Hx.
    rewrite Forall_forall in Hi. exact (Hi x Hx). }
  destruct (Nat.le_gt_cases h 32) as [|Hgt]; [assumption|exfalso].
  apply Nat2Z.inj_le in Hc. rewrite Nat2Z.inj_pow in Hc.
  change (Z.of_nat 2) with 2 in Hc.
  assert (H33 : 2 ^ 33 <= 2 ^ Z.of_nat h) by (apply Z.pow_le_mono_r; lia).
  assert (E : Z.max 0 (2 ^ 31 - - 2 ^ 31) = 2 ^ 32) by reflexivity.
  rewrite E in Hl.
  assert (E2 : 2 ^ 33 = 2 * 2 ^ 32) by reflexivity.
  assert (P : 0 < 2 ^ 32) by reflexivity. lia.
Qed.

(** ** The iterator over a reachable tree *)

Lemma slots_all_shape r lo hi h : shape_ok lo hi h r = true -> slots_all r.
Proof.
  intros Hsh M HM.
  destruct (subtrees_shape r lo hi h M Hsh HM) as [->|[h' H]];
    [destruct r as [es cs]|destruct M as [es cs]];
    [apply shape_ok_iff in Hsh as [_ Hr]|apply shape_ok_iff in H as [_ Hr]];
    unfold child_slots_ok; cbn [children elems];
    destruct Hr as [[-> _]|[_ [Hl _]]]; auto.
Qed.

Lemma iter_init t : tree_ok t ->
  exists H, iter_inv H (bt_iter_dfs_mk t) /\
            iter_rest false (bt_iter_dfs_mk t) = bt_elems t.
Proof.
  intros Hok. unfold bt_iter_dfs_mk, bt_elems.
  destruct (root t) as [r|] eqn:Er.
  - exists (height r). split.
    + split; [discriminate|]. split.
      * constructor; [|constructor]. unfold frame_ok. cbn [fr_i fr_node].
        split; [lia|].
        unfold tree_ok in Hok. rewrite Er in Hok. destruct Hok as [[h Hsh] _].
        exact (slots_all_shape r 1 4 h Hsh).
      * split; [exact I|]. split; [cbn; split; [lia|exact I]|].
        unfold BT_ITER_STACK_SIZE. exact (tree_ok_height t r Hok Er).
    + cbn [iter_rest flat_map frame_rest_top fr_i fr_node].
      rewrite from_child_0. apply app_nil_r.
  - exists 0%nat. split; [|reflexivity].
    split; [discriminate|]. split; [constructor; [exact I|constructor]|].
    split; [exact I|]. split; [cbn; tauto|]. unfold BT_ITER_STACK_SIZE. lia.
Qed.

(** * The claims *)

(** ** Invariants and insertion *)

(** C1.  Every tree built from [bt_mk] by [bt_insert] calls satisfies the
    B-tree invariants: in every node the keys increase strictly, the keys
    below child slot [i] are less than [elems[i]] and those below slot
    [i+1] greater, all leaves are at the same depth, the root holds at most
    [2 * factor] keys and every other node between [factor] and
    [2 * factor]. *)
Theorem reachable_bt_invariants (t : bt) :
  reachable t -> bt_invariants t.
Proof.
  intros H. apply tree_ok_invariants. apply reachable_tree_ok. exact H.
Qed.

Lemma reachable_bt_invariants_witness :
  reachable (snd (bt_insert bt_mk 5 None)) /\
  bt_invariants (snd (bt_insert bt_mk 5 None)).
Proof.
  assert (H : reachable (snd (bt_insert bt_mk 5 None)))
    by (apply reach_insert; [exact reach_mk | unfold is_int; lia]).
  split; [exact H | exact (reachable_bt_invariants _ H)].
Defined.

(** C3.  On a reachable tree, inserting an [int] equal to a stored key
    returns [true], hands the old key to [*prev] when [prev] is not [NULL],
    and gives back the same tree (keys that compare equal are equal
    [int]s, so the overwrite changes nothing); inserting a key that is not
    stored returns [false]. *)
Theorem bt_insert_replace (t : bt) (x : Z) (prev : option Z) :
  reachable t -> is_int x ->
  (In x (bt_keys t) -> bt_insert t x prev = (true, write_prev prev x, t)) /\
  (~ In x (bt_keys t) -> fst (fst (bt_insert t x prev)) = false).
Proof.
  intros Hr Hx. pose proof (reachable_tree_ok t Hr) as Hok. split.
  - intros Hin. apply bt_insert_found; [exact Hok|].
    apply (tree_ok_keys t x Hok). exact Hin.
  - intros Hn.
    assert (Hn' : ~ In x (bt_elems t)) by (rewrite <- (tree_ok_keys t x Hok); exact Hn).
    destruct (bt_insert_fresh t x prev Hok Hx Hn') as [t' [-> _]]. reflexivity.
Qed.

Lemma bt_insert_replace_witness :
  let t := bt_build [10; 20; 5; 6; 12; 30; 7; 17] in
  reachable t /\ is_int 6 /\
  (In 6 (bt_keys t) -> bt_insert t 6 (Some 0) = (true, write_prev (Some 0) 6, t)) /\
  (~ In 6 (bt_keys t) -> fst (fst (bt_insert t 6 (Some 0))) = false).
Proof.
  cbv zeta.
  assert (H : reachable (bt_build [10; 20; 5; 6; 12; 30; 7; 17]))
    by (apply reachable_build; repeat constructor; unfold is_int; lia).
  assert (Hx : is_int 6) by (unfold is_int; lia).
  split; [exact H|]. split; [exact Hx|].
  exact (bt_insert_replace _ 6 (Some 0) H Hx).
Defined.

(** C10.  On a tree satisfying the invariants (so between two top-level
    operations), when [bt_insert] returns [false] the cell [*prev] holds
    what it held before the call. *)
Theorem bt_insert_prev_frame (t : bt) (x : Z) (prev : option Z)
    (rep : bool) (pv : option Z) (t' : bt) :
  bt_invariants t -> bt_insert t x prev = (rep, pv, t') -> rep = false ->
  pv = prev.
Proof.
  intros Hinv Hins Hrep. pose proof (invariants_small t Hinv) as Hsm.
  unfold bt_insert in Hins. destruct (root t) as [r|].
  - destruct (bt_node_insert r x prev) as [[rep1 pv1] r'] eqn:E.
    destruct (node_insert_frame r x prev rep1 pv1 r' Hsm E) as [Hf _].
    destruct (length (elems r') <=? 2 * BT_FACTOR)%nat.
    + injection Hins as -> -> _. auto.
    + destruct (bt_split_node [r'] 0) as [m cs].
      injection Hins as -> -> _. auto.
  - injection Hins as _ -> _. reflexivity.
Qed.

Lemma bt_insert_prev_frame_witness :
  let t := bt_build [10; 20; 5; 6; 12; 30; 7; 17] in
  bt_invariants t /\
  bt_insert t 8 (Some 0) = (false, Some 0, snd (bt_insert t 8 (Some 0))) /\
  false = false /\ Some 0 = Some 0.
Proof.
  cbv zeta.
  assert (H : bt_invariants (bt_build [10; 20; 5; 6; 12; 30; 7; 17])).
  { apply tree_ok_invariants, reachable_tree_ok, reachable_build.
    repeat constructor; unfold is_int; lia. }
  assert (E : bt_insert (bt_build [10; 20; 5; 6; 12; 30; 7; 17]) 8 (Some 0) =
              (false, Some 0,
               snd (bt_insert (bt_build [10; 20; 5; 6; 12; 30; 7; 17]) 8 (Some 0))))
    by (vm_compute; reflexivity).
  split; [exact H|]. split; [exact E|]. split; [reflexivity|].
  exact (bt_insert_prev_frame _ 8 (Some 0) false (Some 0) _ H E eq_refl).
Defined.

(** ** Lookup *)

(** C4, as the spec states it, fails: a tree whose root holds no key
    satisfies the invariants as listed (the root may hold [0] keys), yet
    looking up [0] in it returns the empty slot [elems[0]] although no key
    is stored. *)
Lemma bt_lookup_empty_root_node :
  let t := {| root := Some (BNode [] []); size := 0 |} in
  bt_invariants t /\ ~ In 0 (bt_keys t) /\ bt_lookup t 0 = Some 0.
Proof.
  cbv zeta. split; [|split; [simpl; tauto|reflexivity]].
  unfold bt_invariants. cbn [root]. split; [|split; [|split]].
  - intros N [<-|[]]. split; [|split].
    + constructor.
    + intros i e He. destruct i; discriminate.
    + left. reflexivity.
  - exists 0%nat. intros d [<-|[]]. reflexivity.
  - simpl. lia.
  - intros c N [].
Qed.

(** C4 (amended).  On a tree satisfying the invariants whose nodes all
    hold at least one key (as every tree built by [bt_insert] does),
    [bt_lookup] returns the stored key equal to [x] when there is one and
    [NULL] otherwise; on the empty tree it returns [NULL]. *)
Theorem bt_lookup_correct (t : bt) (x : Z) :
  bt_invariants t -> nodes_nonempty t ->
  bt_lookup t x = if in_dec Z.eq_dec x (bt_keys t) then Some x else None.
Proof.
  destruct t as [[r|] sz]; unfold bt_invariants, nodes_nonempty, bt_lookup, bt_keys;
    cbn [root]; [|reflexivity].
  intros [Hall _] Hne. apply node_lookup_inv.
  intros M HM. destruct (Hall M HM) as [H1 [H2 H3]]. auto.
Qed.

Lemma bt_lookup_correct_witness :
  let t := bt_build [10; 20; 5; 6; 12; 30; 7; 17] in
  bt_invariants t /\ nodes_nonempty t /\
  bt_lookup t 12 = (if in_dec Z.eq_dec 12 (bt_keys t) then Some 12 else None).
Proof.
  cbv zeta.
  assert (H : tree_ok (bt_build [10; 20; 5; 6; 12; 30; 7; 17])).
  { apply reachable_tree_ok, reachable_build.
    repeat constructor; unfold is_int; lia. }
  pose proof (tree_ok_invariants _ H) as H1.
  pose proof (tree_ok_nonempty _ H) as H2.
  split; [exact H1|]. split; [exact H2|].
  exact (bt_lookup_correct _ 12 H1 H2).
Defined.

(** ** The element count *)

(** C5.  [bt_insert] never writes [size]: after inserting [1] into the
    empty tree the iterator yields one element while [size] is still
    [0]. *)
Theorem bt_insert_size_stale :
  let t := snd (bt_insert bt_mk 1 None) in
  reachable t /\ size t = 0%nat /\
  iter_outputs 2 (bt_iter_dfs_mk t) = Some [Some 1; None].
Proof.
  cbv zeta. split; [|split; reflexivity].
  apply reach_insert; [exact reach_mk|unfold is_int; lia].
Qed.

(** ** Binary search *)

Lemma bt_node_bsearch_correct_witness :
  StronglySorted Z.lt [1; 3] /\ (1 <= length [1; 3])%nat /\
  (forall i, nth_error [1; 3] i = Some 3 ->
     bt_node_bsearch (length [1; 3]) [1; 3] 3 = Z.of_nat i) /\
  (~ In 3 [1; 3] ->
     bt_node_bsearch (length [1; 3]) [1; 3] 3 = - Z.of_nat (count_lt 3 [1; 3]) - 1).
Proof.
  assert (Hs : StronglySorted Z.lt [1; 3]) by (repeat constructor).
  assert (Hn : (1 <= length [1; 3])%nat) by (simpl; lia).
  split; [exact Hs|]. split; [exact Hn|].
  exact (bt_node_bsearch_correct [1; 3] 3 Hs Hn).
Defined.

Lemma bt_node_bsearch_bounds_witness :
  (1 <= 2)%nat /\
  (forall m, In m (bsearch_reads 2 [1; 3] 2) -> (m < 2)%nat) /\
  bsearch_assert_ok 2 [1; 3] 2 = true.
Proof.
  assert (Hn : (1 <= 2)%nat) by lia.
  split; [exact Hn|].
  exact (proj1 (bt_node_bsearch_bounds 2 [1; 3] 2) Hn).
Defined.

(** ** The iterator *)

(** C2.  On every tree built from [bt_mk] by [bt_insert] calls, the calls
    of [bt_iter_dfs_next] on the iterator [bt_iter_dfs_mk] makes yield the
    keys of the tree in strictly increasing order, each stored key exactly
    once, and then [NULL]: the yielded sequence is sorted and is a
    permutation of the stored keys.  No call faults or overflows the
    32-frame stack. *)
Theorem bt_iter_sorted (t : bt) :
  reachable t ->
  iter_outputs (S (length (bt_elems t))) (bt_iter_dfs_mk t) =
    Some (map Some (bt_elems t) ++ [None]) /\
  StronglySorted Z.lt (bt_elems t) /\ Permutation (bt_elems t) (bt_keys t).
Proof.
  intros Hr. pose proof (reachable_tree_ok t Hr) as Hok.
  destruct (iter_init t Hok) as [H [Hinv Hrest]].
  split; [|split].
  - rewrite <- Hrest. apply (iter_outputs_rest H); [exact Hinv|reflexivity].
  - unfold bt_elems. destruct t as [[r|] sz]; [|constructor].
    exact (proj1 (proj2 Hok)).
  - unfold bt_elems, bt_keys. destruct t as [[r|] sz]; [|constructor].
    destruct Hok as [[h Hsh] _]. exact (node_keys_perm r 1 4 h Hsh).
Qed.

Lemma bt_iter_sorted_witness :
  let t := bt_build [10; 20; 5; 6; 12; 30; 7; 17] in
  reachable t /\
  iter_outputs (S (length (bt_elems t))) (bt_iter_dfs_mk t) =
    Some (map Some (bt_elems t) ++ [None]) /\
  StronglySorted Z.lt (bt_elems t) /\ Permutation (bt_elems t) (bt_keys t).
Proof.
  cbv zeta.
  assert (H : reachable (bt_build [10; 20; 5; 6; 12; 30; 7; 17]))
    by (apply reachable_build; repeat constructor; unfold is_int; lia).
  split; [exact H|]. exact (bt_iter_sorted _ H).
Defined.

(** C9.  Once [bt_iter_dfs_next] has returned [NULL], every later call on
    the same iterator returns [NULL] again (it neither restarts nor
    faults); the iterator over the empty tree returns [NULL] at every
    call. *)
Theorem bt_iter_none_sticky (st st' : bt_iter_dfs) (k : nat) :
  (bt_iter_dfs_next st = IterNone st' ->
   iter_outputs k st' = Some (repeat None k)) /\
  iter_outputs k (bt_iter_dfs_mk bt_mk) = Some (repeat None k).
Proof.
  split.
  - intros E. apply iter_outputs_none_sticky.
    exact (iter_loop_none _ _ _ _ E).
  - apply iter_outputs_none_sticky. intros v'. reflexivity.
Qed.

Lemma bt_iter_none_sticky_witness :
  let st := [ {| fr_i := 1; fr_node := Some (BNode [1] []) |} ] in
  let st' := [ {| fr_i := 2; fr_node := Some (BNode [1] []) |} ] in
  bt_iter_dfs_next st = IterNone st' /\
  iter_outputs 3 st' = Some (repeat None 3) /\
  iter_outputs 3 (bt_iter_dfs_mk bt_mk) = Some (repeat None 3).
Proof.
  cbv zeta.
  assert (E : bt_iter_dfs_next [ {| fr_i := 1; fr_node := Some (BNode [1] []) |} ] =
              IterNone [ {| fr_i := 2; fr_node := Some (BNode [1] []) |} ])
    by reflexivity.
  destruct (bt_iter_none_sticky [ {| fr_i := 1; fr_node := Some (BNode [1] []) |} ]
             [ {| fr_i := 2; fr_node := Some (BNode [1] []) |} ] 3) as [H1 H2].
  split; [exact E|]. split; [exact (H1 E)|exact H2].
Defined.

(** ** [bt_split_node] on the heap *)
Module MemSplit.
Import Mem.

Local Ltac eqb_rw :=
  repeat match goal with
  | |- context [Nat.eqb ?a ?a] => rewrite (Nat.eqb_refl a)
  | |- context [Nat.eqb ?a ?b] => rewrite (proj2 (Nat.eqb_neq a b)) by lia
  end.

Local Ltac heap_step :=
  repeat (first [ progress eqb_rw
                | match goal with
                  | H : hmem _ _ = _ |- _ => progress rewrite H
                  end ]; cbn).

(** C6.  Splitting the full child at [children[idx]] of a parent with room
    for one more child allocates a fresh sibling; moves the child's two
    upper keys (and, for an internal child, its three upper child pointers)
    into it; sets both [n] to [BT_FACTOR]; shifts the parent's child
    pointers from slot [idx+1] one slot to the right and stores the sibling
    at [idx+1]; leaves the parent's [n] and [elems], all other nodes and
    the child's arrays unchanged; and returns the child's key at index
    [BT_FACTOR]. *)
Theorem bt_split_node_spec (h : heap) (parent idx c : nat) (P C : node) :
  heap_wf h ->
  load h parent = Some P ->
  (m_n P <= 2 * BT_FACTOR)%nat ->
  (idx <= m_n P)%nat ->
  nth_error (m_children P) idx = Some c ->
  c <> parent ->
  load h c = Some C ->
  m_n C = (2 * BT_FACTOR + 1)%nat ->
  exists h',
    bt_split_node h parent idx = Some (nth BT_FACTOR (m_elems C) 0, h') /\
    hmem h (hnext h) = None /\
    (exists P', load h' parent = Some P' /\
       m_n P' = m_n P /\ m_elems P' = m_elems P /\
       (forall j, (j <= idx)%nat ->
          nth j (m_children P') NULL = nth j (m_children P) NULL) /\
       nth (S idx) (m_children P') NULL = hnext h /\
       (forall j, (S idx < j <= S (m_n P))%nat ->
          nth j (m_children P') NULL = nth (j - 1) (m_children P) NULL)) /\
    (exists R, load h' (hnext h) = Some R /\
       m_n R = BT_FACTOR /\
       firstn BT_FACTOR (m_elems R) =
         firstn BT_FACTOR (skipn (BT_FACTOR + 1) (m_elems C)) /\
       (nth 0 (m_children C) NULL <> NULL ->
        firstn (BT_FACTOR + 1) (m_children R) =
          firstn (BT_FACTOR + 1) (skipn (BT_FACTOR + 1) (m_children C))) /\
       (nth 0 (m_children C) NULL = NULL ->
        m_children R = repeat NULL (2 * BT_FACTOR + 2))) /\
    (exists C', load h' c = Some C' /\
       m_n C' = BT_FACTOR /\ m_elems C' = m_elems C /\
       m_children C' = m_children C) /\
    (forall q, q <> parent -> q <> c -> q <> hnext h -> hmem h' q = hmem h q).
Proof.
  unfold load, NULL. intros [H0 [Hfree Hlen]] HP Hn Hidx Hc Hcp HC HCn.
  assert (Hr : hmem h (hnext h) = None) by (apply Hfree; lia).
  assert (Hrp : hnext h <> parent) by congruence.
  assert (Hrc : hnext h <> c) by congruence.
  destruct (Hlen _ _ HP) as [LPe LPc]. destruct (Hlen _ _ HC) as [LCe LCc].
  destruct P as [n es cs], C as [cn ces ccs]; cbn in *. subst cn.
  destruct es as [|e0 [|e1 [|e2 [|e3 [|e4 [|]]]]]]; try discriminate.
  destruct cs as [|p0 [|p1 [|p2 [|p3 [|p4 [|p5 [|]]]]]]]; try discriminate.
  destruct ces as [|k0 [|k1 [|k2 [|k3 [|k4 [|]]]]]]; try discriminate.
  destruct ccs as [|q0 [|q1 [|q2 [|q3 [|q4 [|q5 [|]]]]]]]; try discriminate.
  clear LPe LPc LCe LCc.
  unfold BT_FACTOR in *.
  destruct (Nat.eqb_spec q0 0) as [Eq0|Eq0]; [subst q0|];
  destruct n as [|[|[|[|[|n]]]]]; try lia;
  destruct idx as [|[|[|[|[|idx]]]]]; try lia;
  cbn in Hc; injection Hc as <-;
  unfold bt_split_node, load, store, calloc, obind, size_sub, memmove,
    arr_get, arr_set, arr_read, arr_write, with_n, with_elems,
    with_children, upd_nth, NULL; cbn; heap_step;
  eexists; (split; [reflexivity|]); cbn; heap_step;
  (split; [first [reflexivity|assumption]|]);
  (split; [eexists; split; [reflexivity|];
           repeat split; intros j Hj;
           (destruct j as [|[|[|[|[|[|j]]]]]]; try lia; reflexivity)|]);
  (split; [eexists; split; [reflexivity|]; repeat split; intros; congruence|]);
  (split; [eexists; split; [reflexivity|]; repeat split|]);
  intros q Hq1 Hq2 Hq3; heap_step; reflexivity.
Qed.

Lemma bt_split_node_spec_witness :
  heap_wf split_ex_heap /\
  exists h', bt_split_node split_ex_heap 1 0 = Some (3, h') /\
             load h' 4 = Some (MkNode 2 [4; 5; 0; 0; 0] (repeat NULL 6)).
Proof.
  assert (Hwf : heap_wf split_ex_heap).
  { split; [reflexivity|]. split.
    - intros q Hq. destruct q as [|[|[|[|q]]]]; cbn in *; (lia || reflexivity).
    - intros q nd E. destruct q as [|[|[|[|q]]]]; cbn in E; try discriminate;
        injection E as <-; split; reflexivity. }
  split; [exact Hwf|].
  destruct (bt_split_node_spec split_ex_heap 1 0 2 split_ex_parent split_ex_child
              Hwf eq_refl ltac:(cbn; lia) ltac:(cbn; lia) eq_refl
              ltac:(discriminate) eq_refl eq_refl)
    as [h' [E _]].
  exists h'. split; [exact E|].
  cbn in E. injection E as <-. reflexivity.
Defined.

End MemSplit.

(** * Further properties of the code *)

(** ** Helpers *)

Lemma lookup_tree_ok t y :
  tree_ok t -> bt_lookup t y = if in_dec Z.eq_dec y (bt_elems t) then Some y else None.
Proof.
  destruct t as [[r|] sz]; unfold tree_ok, bt_lookup, bt_elems; simpl.
  - intros [[h Hsh] [Hs _]]. apply (node_lookup_spec r 1 h y); [lia|exact Hsh|exact Hs].
  - intros _. reflexivity.
Qed.

Lemma insert_elems t x prev y :
  tree_ok t -> is_int x ->
  In y (bt_elems (snd (bt_insert t x prev))) <-> y = x \/ In y (bt_elems t).
Proof.
  intros Hok Hx. destruct (in_dec Z.eq_dec x (bt_elems t)) as [Hin|Hn].
  - rewrite (bt_insert_found t x prev Hok Hin). simpl. intuition congruence.
  - destruct (bt_insert_fresh t x prev Hok Hx Hn) as [t' [E [_ [He _]]]].
    rewrite E. simpl. rewrite He. apply In_sinsert.
Qed.

Lemma elems_keys_perm t : tree_ok t -> Permutation (bt_elems t) (bt_keys t).
Proof.
  unfold bt_elems, bt_keys, tree_ok. destruct (root t) as [r|]; [|constructor].
  intros [[h Hsh] _]. exact (node_keys_perm r 1 4 h Hsh).
Qed.

Lemma insert_tree_snd t x : bt_insert_tree t x = snd (bt_insert t x None).
Proof. unfold bt_insert_tree. destruct (bt_insert t x None) as [[? ?] ?]. reflexivity. Qed.

Lemma build_elems xs : forall t y,
  reachable t -> Forall is_int xs ->
  In y (bt_elems (fold_left bt_insert_tree xs t)) <-> In y xs \/ In y (bt_elems t).
Proof.
  induction xs as [|x xs IH]; intros t y Hr Hxs; simpl; [tauto|].
  inversion Hxs as [|? ? Hx Hxs']; subst.
  rewrite insert_tree_snd.
  rewrite (IH _ y (reach_insert t x None Hr Hx) Hxs').
  rewrite (insert_elems t x None y (reachable_tree_ok t Hr) Hx). intuition congruence.
Qed.

Lemma flat_map_perm_ext {A B} (f g : A -> list B) (l : list A) :
  (forall a, In a l -> Permutation (f a) (g a)) ->
  Permutation (flat_map f l) (flat_map g l).
Proof.
  induction l as [|a l IH]; simpl; intros H; [constructor|].
  apply Permutation_app; auto.
Qed.

Lemma slot_fix_app {B} (g : bnode -> list B) : forall cs k,
  (length cs <= S k)%nat ->
  (fix go (cs : list bnode) (k : nat) : list B :=
     match cs with
     | [] => []
     | c :: cs' => g c ++ match k with O => [] | S k' => go cs' k' end
     end) cs k = flat_map g cs.
Proof.
  induction cs as [|c cs IH]; intros k Hl; simpl; [reflexivity|].
  destruct k as [|k].
  - destruct cs; [reflexivity|simpl in Hl; lia].
  - simpl in Hl. rewrite IH by lia. reflexivity.
Qed.

Lemma bt_node_free_eq es cs :
  (length cs <= S (length es))%nat ->
  bt_node_free (BNode es cs) = flat_map bt_node_free cs ++ [BNode es cs].
Proof.
  intros Hl. cbn [bt_node_free].
  pose proof (slot_fix_app bt_node_free cs (length es) Hl) as E.
  cbn beta in E. rewrite E. reflexivity.
Qed.

Lemma free_perm : forall N,
  (forall M, In M (subtrees N) -> child_slots_ok M) ->
  Permutation (bt_node_free N) (subtrees N).
Proof.
  intro N; induction N as [es cs IH] using bnode_ind'. intros Hall.
  assert (Hl : (length cs <= S (length es))%nat).
  { destruct (Hall _ (subtrees_self _)) as [Hc|Hc]; cbn [children elems] in Hc.
    - subst. simpl. lia.
    - lia. }
  rewrite (bt_node_free_eq es cs Hl). cbn [subtrees].
  eapply Permutation_trans; [apply Permutation_sym, Permutation_cons_append|].
  apply perm_skip. apply flat_map_perm_ext. intros c Hc.
  rewrite Forall_forall in IH. apply IH; [exact Hc|].
  intros M HM. apply Hall. exact (subtrees_child es cs c M Hc HM).
Qed.

Lemma print_fix {B} (g : bnode -> list B) (E : list B) : forall cs k,
  length cs = S k ->
  match cs with
  | [] => []
  | _ =>
      (fix go (cs : list bnode) (k : nat) : list B :=
         match cs with
         | [] => concat (repeat E (S k))
         | c :: cs' => g c ++ match k with O => [] | S k' => go cs' k' end
         end) cs k
  end = flat_map g cs.
Proof.
  intros cs. destruct cs as [|c cs]; intros k Hl; [discriminate|].
  revert c k Hl. induction cs as [|c' cs IH]; intros c k Hl; simpl in Hl.
  - injection Hl as <-. simpl. reflexivity.
  - destruct k as [|k]; [lia|]. simpl. f_equal.
    specialize (IH c' k ltac:(simpl; lia)). simpl in IH. rewrite IH. reflexivity.
Qed.

Lemma bt_print_node_eq es cs depth :
  child_slots_ok (BNode es cs) ->
  bt_print_node (BNode es cs) depth =
  print_indent depth ++ [PStr "elems:"%string] ++ map PInt es ++ [PStr newline] ++
  flat_map (fun c => bt_print_node c (depth + 1)) cs.
Proof.
  intros [Hc|Hc]; cbn [children elems] in Hc.
  - subst. reflexivity.
  - cbn [bt_print_node].
    pose proof (print_fix (fun c => bt_print_node c (depth + 1))
                  (print_empty (depth + 1)) cs (length es) Hc) as E.
    cbn beta in E. rewrite E. reflexivity.
Qed.

Lemma printed_ints_app a b :
  printed_ints (a ++ b) = printed_ints a ++ printed_ints b.
Proof. unfold printed_ints. apply flat_map_app. Qed.

Lemma printed_ints_flat_map {A} (g : A -> list print_ev) l :
  printed_ints (flat_map g l) = flat_map (fun a => printed_ints (g a)) l.
Proof.
  induction l as [|a l IH]; simpl; [reflexivity|].
  rewrite printed_ints_app, IH. reflexivity.
Qed.

Lemma printed_ints_indent d : printed_ints (print_indent d) = [].
Proof. unfold print_indent. induction (Z.to_nat d); simpl; auto. Qed.

Lemma printed_ints_map es : printed_ints (map PInt es) = es.
Proof. induction es as [|e es IH]; simpl; [reflexivity|]. rewrite IH. reflexivity. Qed.

Lemma headers_app a b :
  length (filter is_header (a ++ b)) =
  (length (filter is_header a) + length (filter is_header b))%nat.
Proof. rewrite filter_app. apply length_app. Qed.

Lemma headers_flat_map {A} (g : A -> list print_ev) l :
  length (filter is_header (flat_map g l)) =
  list_sum (map (fun a => length (filter is_header (g a))) l).
Proof.
  induction l as [|a l IH]; simpl; [reflexivity|].
  rewrite headers_app, IH. reflexivity.
Qed.

Lemma headers_indent d : length (filter is_header (print_indent d)) = 0%nat.
Proof. unfold print_indent. induction (Z.to_nat d); simpl; auto. Qed.

Lemma headers_map es : length (filter is_header (map PInt es)) = 0%nat.
Proof. induction es; simpl; auto. Qed.

Lemma length_flat_map {A B} (f : A -> list B) l :
  length (flat_map f l) = list_sum (map (fun a => length (f a)) l).
Proof.
  induction l as [|a l IH]; simpl; [reflexivity|]. rewrite length_app, IH. reflexivity.
Qed.

Lemma flat_map_ext_in' {A B} (f g : A -> list B) (l : list A) :
  (forall a, In a l -> f a = g a) -> flat_map f l = flat_map g l.
Proof.
  induction l as [|a l IH]; simpl; intros H; [reflexivity|].
  rewrite H, IH; auto.
Qed.

Lemma print_node_props : forall N depth,
  (forall M, In M (subtrees N) -> child_slots_ok M) ->
  printed_ints (bt_print_node N depth) = node_keys N /\
  length (filter is_header (bt_print_node N depth)) = length (subtrees N) /\
  ~ In (PStr ("<empty>" ++ newline)%string) (bt_print_node N depth).
Proof.
  intro N; induction N as [es cs IH] using bnode_ind'. intros depth Hall.
  rewrite (bt_print_node_eq es cs depth (Hall _ (subtrees_self _))).
  rewrite Forall_forall in IH.
  assert (IHc : forall c, In c cs ->
    printed_ints (bt_print_node c (depth + 1)) = node_keys c /\
    length (filter is_header (bt_print_node c (depth + 1))) = length (subtrees c) /\
    ~ In (PStr ("<empty>" ++ newline)%string) (bt_print_node c (depth + 1))).
  { intros c Hc. apply IH; [exact Hc|].
    intros M HM. apply Hall. exact (subtrees_child es cs c M Hc HM). }
  split; [|split].
  - rewrite !printed_ints_app, printed_ints_indent, printed_ints_map,
      printed_ints_flat_map. simpl. f_equal.
    apply flat_map_ext_in'. intros c Hc. apply (IHc c Hc).
  - rewrite !headers_app, headers_indent, headers_map, headers_flat_map.
    cbn [subtrees length]. rewrite length_flat_map. simpl. f_equal. f_equal.
    apply map_ext_in. intros c Hc. apply (IHc c Hc).
  - intros Hin. repeat (apply in_app_or in Hin as [Hin|Hin]).
    + unfold print_indent in Hin. apply repeat_spec in Hin. discriminate.
    + destruct Hin as [Hin|[]]. discriminate.
    + apply in_map_iff in Hin as [e [He _]]. discriminate.
    + destruct Hin as [Hin|[]]. discriminate.
    + apply in_flat_map in Hin as [c [Hc Hin]]. exact (proj2 (proj2 (IHc c Hc)) Hin).
Qed.

Lemma child_fix_dflt {B} (g : bnode -> B) (d : B) : forall cs k,
  (fix go (cs : list bnode) (k : nat) : B :=
     match cs, k with
     | [], _ => d
     | c :: _, O => g c
     | _ :: cs', S k' => go cs' k'
     end) cs k = match nth_error cs k with Some c => g c | None => d end.
Proof. induction cs as [|c cs IH]; intros [|k]; simpl; auto. Qed.

Lemma bt_lookup_node_out_eq es cs elem nodep :
  bt_lookup_node_out (BNode es cs) elem nodep =
  let nodep1 := write_node nodep (BNode es cs) in
  let idx := bt_node_bsearch (length es) es elem in
  if 0 <=? idx then (Some (nth (Z.to_nat idx) es 0), nodep1)
  else match nth_error cs (Z.to_nat (- idx - 1)) with
       | Some c => bt_lookup_node_out c elem nodep1
       | None => (None, nodep1)
       end.
Proof.
  cbn [bt_lookup_node_out]. destruct (0 <=? _); [reflexivity|].
  pose proof (child_fix_dflt
    (fun c => bt_lookup_node_out c elem (write_node nodep (BNode es cs)))
    (None, write_node nodep (BNode es cs)) cs
    (Z.to_nat (- bt_node_bsearch (length es) es elem - 1))) as E.
  cbn beta in E. rewrite E. reflexivity.
Qed.

Lemma lookup_out_fst : forall N x nodep,
  fst (bt_lookup_node_out N x nodep) = bt_lookup_node N x.
Proof.
  intro N; induction N as [es cs IH] using bnode_ind'. intros x nodep.
  rewrite bt_lookup_node_out_eq, bt_lookup_node_eq. cbv zeta.
  destruct (0 <=? _); [reflexivity|].
  destruct (nth_error cs _) as [c|] eqn:Hc; [|reflexivity].
  rewrite Forall_forall in IH. apply IH. eapply nth_error_In; eauto.
Qed.

Lemma lookup_out_node : forall N x v,
  (forall M, In M (subtrees N) ->
     keys_increasing M /\ children_separated M /\ child_slots_ok M /\
     elems M <> []) ->
  exists M, snd (bt_lookup_node_out N x (Some v)) = Some (Some M) /\
    In M (subtrees N) /\
    (if in_dec Z.eq_dec x (node_keys N) then In x (elems M)
     else children M = [] /\ ~ In x (elems M)).
Proof.
  intro N; induction N as [es cs IH] using bnode_ind'.
  intros x v Hall. rewrite bt_lookup_node_out_eq. cbv zeta.
  destruct (Hall _ (subtrees_self _)) as [Hes [Hsep [Hslot Hne]]].
  unfold keys_increasing, child_slots_ok in *; cbn [elems children] in *.
  destruct (bt_node_bsearch_spec es x Hes Hne)
    as [[H1 [H2 H3]]|[H1 [H2 [H3 H4]]]];
    set (r := bt_node_bsearch (length es) es x) in *.
  - destruct (Z.leb_spec 0 r) as [_|?]; [|lia].
    exists (BNode es cs). split; [reflexivity|]. split; [apply subtrees_self|].
    assert (Hx : In x es) by (rewrite <- H3; apply nth_In; exact H2).
    destruct (in_dec Z.eq_dec x (node_keys (BNode es cs))) as [_|Hn]; [exact Hx|].
    exfalso. apply Hn. simpl. apply in_or_app. auto.
  - destruct (Z.leb_spec 0 r) as [?|_]; [lia|].
    set (p := Z.to_nat (- r - 1)) in *.
    pose proof (not_found_not_in es p x H3 H4) as Hnes.
    destruct (nth_error cs p) as [c|] eqn:Hc.
    + assert (Hcin : In c cs) by (eapply nth_error_In; eauto).
      assert (Hallc : forall M, In M (subtrees c) ->
                keys_increasing M /\ children_separated M /\ child_slots_ok M /\
                elems M <> [])
        by (intros M HM; apply Hall; exact (subtrees_child es cs c M Hcin HM)).
      rewrite Forall_forall in IH.
      destruct (IH c Hcin x (Some (BNode es cs)) Hallc) as [M [EM [HM Hcond]]].
      exists M. split; [exact EM|]. split; [exact (subtrees_child es cs c M Hcin HM)|].
      assert (Hlk : bt_lookup_node (BNode es cs) x = bt_lookup_node c x).
      { rewrite bt_lookup_node_eq. cbv zeta. fold r.
        destruct (Z.leb_spec 0 r); [lia|]. fold p. rewrite Hc. reflexivity. }
      rewrite (node_lookup_inv (BNode es cs) x Hall), (node_lookup_inv c x Hallc) in Hlk.
      destruct (in_dec Z.eq_dec x (node_keys (BNode es cs)));
        destruct (in_dec Z.eq_dec x (node_keys c)); congruence.
    + exists (BNode es cs). split; [reflexivity|]. split; [apply subtrees_self|].
      destruct Hslot as [->|Hl]; [|apply nth_error_None in Hc; lia].
      destruct (in_dec Z.eq_dec x (node_keys (BNode es []))) as [Hy|_].
      * exfalso. simpl in Hy. rewrite app_nil_r in Hy. auto.
      * split; [reflexivity|exact Hnes].
Qed.

(** ** Insertion and lookup *)

(** X1.  After [bt_insert(bt, x, prev)] on a tree built by insertions,
    looking up [x] finds [x], and looking up any other key gives what it
    gave before the insertion. *)
Theorem bt_insert_lookup (t : bt) (x y : Z) (prev : option Z) :
  reachable t -> is_int x ->
  bt_lookup (snd (bt_insert t x prev)) y =
  if Z.eq_dec y x then Some y else bt_lookup t y.
Proof.
  intros Hr Hx.
  pose proof (reachable_tree_ok t Hr) as Hok.
  pose proof (reachable_tree_ok _ (reach_insert t x prev Hr Hx)) as Hok'.
  rewrite (lookup_tree_ok _ y Hok'), (lookup_tree_ok _ y Hok).
  pose proof (insert_elems t x prev y Hok Hx) as Hiff.
  destruct (Z.eq_dec y x) as [->|Hne].
  - destruct (in_dec Z.eq_dec x _) as [_|Hn]; [reflexivity|].
    exfalso. apply Hn, Hiff. auto.
  - destruct (in_dec Z.eq_dec y (bt_elems (snd (bt_insert t x prev)))) as [H1|H1];
      destruct (in_dec Z.eq_dec y (bt_elems t)) as [H2|H2]; try reflexivity; exfalso.
    + apply Hiff in H1 as [H1|H1]; auto.
    + apply H1, Hiff. auto.
Qed.

Lemma bt_insert_lookup_witness :
  let t := bt_build [10; 20; 5; 6; 12; 30; 7; 17] in
  reachable t /\ is_int 8 /\
  bt_lookup (snd (bt_insert t 8 None)) 8 = Some 8 /\
  bt_lookup (snd (bt_insert t 8 None)) 9 = bt_lookup t 9.
Proof.
  cbv zeta.
  assert (H : reachable (bt_build [10; 20; 5; 6; 12; 30; 7; 17]))
    by (apply reachable_build; repeat constructor; unfold is_int; lia).
  assert (Hx : is_int 8) by (unfold is_int; lia).
  split; [exact H|]. split; [exact Hx|]. split.
  - exact (bt_insert_lookup _ 8 8 None H Hx).
  - exact (bt_insert_lookup _ 8 9 None H Hx).
Defined.

(** X2.  Inserting a key the tree does not hold adds exactly that key: the
    stored keys become the old ones plus [x], and the in-order sequence
    gets [x] at its sorted position. *)
Theorem bt_insert_adds_key (t : bt) (x : Z) (prev : option Z) :
  reachable t -> is_int x -> ~ In x (bt_keys t) ->
  Permutation (bt_keys (snd (bt_insert t x prev))) (x :: bt_keys t) /\
  bt_elems (snd (bt_insert t x prev)) = sinsert x (bt_elems t).
Proof.
  intros Hr Hx Hn. pose proof (reachable_tree_ok t Hr) as Hok.
  assert (Hn' : ~ In x (bt_elems t)) by (intros H; apply Hn, (tree_ok_keys t x Hok), H).
  destruct (bt_insert_fresh t x prev Hok Hx Hn') as [t' [E [Hok' [He _]]]].
  rewrite E. simpl. split; [|exact He].
  apply Permutation_trans with (bt_elems t');
    [apply Permutation_sym, elems_keys_perm; exact Hok'|].
  rewrite He. eapply Permutation_trans; [apply sinsert_perm|].
  apply perm_skip, elems_keys_perm. exact Hok.
Qed.

Lemma bt_insert_adds_key_witness :
  let t := bt_build [10; 20; 5; 6; 12; 30; 7; 17] in
  reachable t /\ is_int 8 /\ ~ In 8 (bt_keys t) /\
  Permutation (bt_keys (snd (bt_insert t 8 None))) (8 :: bt_keys t).
Proof.
  cbv zeta.
  assert (H : reachable (bt_build [10; 20; 5; 6; 12; 30; 7; 17]))
    by (apply reachable_build; repeat constructor; unfold is_int; lia).
  assert (Hx : is_int 8) by (unfold is_int; lia).
  assert (Hn : ~ In 8 (bt_keys (bt_build [10; 20; 5; 6; 12; 30; 7; 17])))
    by (vm_compute; intuition discriminate).
  split; [exact H|]. split; [exact Hx|]. split; [exact Hn|].
  exact (proj1 (bt_insert_adds_key _ 8 None H Hx Hn)).
Defined.

(** X3.  Inserting the [int]s of a list [xs] one after the other into
    [bt_mk()] and iterating gives the distinct values of [xs] in
    increasing order, then [NULL]. *)
Theorem bt_build_sorts (xs : list Z) :
  Forall is_int xs ->
  exists l, StronglySorted Z.lt l /\ (forall y, In y l <-> In y xs) /\
    iter_outputs (S (length l)) (bt_iter_dfs_mk (bt_build xs)) =
      Some (map Some l ++ [None]).
Proof.
  intros Hxs. pose proof (reachable_build xs Hxs) as Hr.
  pose proof (reachable_tree_ok _ Hr) as Hok.
  exists (bt_elems (bt_build xs)). split; [|split].
  - unfold bt_elems. unfold tree_ok in Hok.
    destruct (root (bt_build xs)) as [r|]; [exact (proj1 (proj2 Hok))|constructor].
  - intros y. unfold bt_build.
    rewrite (build_elems xs bt_mk y reach_mk Hxs). simpl. tauto.
  - destruct (iter_init _ Hok) as [H [Hinv Hrest]].
    rewrite <- Hrest. apply (iter_outputs_rest H); [exact Hinv|reflexivity].
Qed.

Lemma bt_build_sorts_witness :
  Forall is_int [3; 1; 2; 3; 1] /\
  exists l, StronglySorted Z.lt l /\ (forall y, In y l <-> In y [3; 1; 2; 3; 1]) /\
    iter_outputs (S (length l)) (bt_iter_dfs_mk (bt_build [3; 1; 2; 3; 1])) =
      Some (map Some l ++ [None]).
Proof.
  assert (H : Forall is_int [3; 1; 2; 3; 1]) by (repeat constructor; unfold is_int; lia).
  split; [exact H|]. exact (bt_build_sorts _ H).
Defined.

(** X4.  A tree built by insertions holding [k] keys has height at most
    [1 + log2 k]: [2 ^ height <= 2 * k]. *)
Theorem bt_height_log (t : bt) (r : bnode) :
  reachable t -> root t = Some r ->
  (2 ^ height r <= 2 * length (bt_keys t))%nat.
Proof.
  intros Hr Er. pose proof (reachable_tree_ok t Hr) as Hok.
  unfold tree_ok in Hok. rewrite Er in Hok. destruct Hok as [[h Hsh] _].
  rewrite (shape_height r 1 4 h Hsh).
  unfold bt_keys. rewrite Er.
  pose proof (Permutation_length (node_keys_perm r 1 4 h Hsh)) as Hl.
  destruct (count_root r 4 h Hsh) as [->|H]; [|lia].
  destruct r as [es cs]. apply shape_ok_iff in Hsh as [Hb _].
  simpl. rewrite length_app. lia.
Qed.

Lemma bt_height_log_witness :
  let t := bt_build [10; 20; 5; 6; 12; 30; 7; 17] in
  let r := BNode [10] [BNode [5; 6; 7] []; BNode [12; 17; 20; 30] []] in
  reachable t /\ root t = Some r /\ (2 ^ height r <= 2 * length (bt_keys t))%nat.
Proof.
  cbv zeta.
  assert (H : reachable (bt_build [10; 20; 5; 6; 12; 30; 7; 17]))
    by (apply reachable_build; repeat constructor; unfold is_int; lia).
  assert (E : root (bt_build [10; 20; 5; 6; 12; 30; 7; 17]) =
              Some (BNode [10] [BNode [5; 6; 7] []; BNode [12; 17; 20; 30] []]))
    by reflexivity.
  split; [exact H|]. split; [exact E|]. exact (bt_height_log _ _ H E).
Defined.

(** ** [bt_free] *)

(** X5.  [bt_free] on a tree satisfying the invariants calls [free] once
    for every node of the tree (as a multiset of nodes), the root last;
    on the empty tree it frees nothing. *)
Theorem bt_free_all_nodes (t : bt) :
  bt_invariants t ->
  match root t with
  | None => bt_free t = []
  | Some r => Permutation (bt_free t) (subtrees r) /\ exists l, bt_free t = l ++ [r]
  end.
Proof.
  unfold bt_invariants, bt_free. destruct (root t) as [r|]; [|reflexivity].
  intros [Hall _]. split.
  - apply free_perm. intros M HM. apply (Hall M HM).
  - destruct r as [es cs]. cbn [bt_node_free]. eexists. reflexivity.
Qed.

Lemma bt_free_all_nodes_witness :
  let t := bt_build [10; 20; 5; 6; 12; 30; 7; 17] in
  bt_invariants t /\
  Permutation (bt_free t)
    (subtrees (BNode [10] [BNode [5; 6; 7] []; BNode [12; 17; 20; 30] []])).
Proof.
  cbv zeta.
  assert (H : bt_invariants (bt_build [10; 20; 5; 6; 12; 30; 7; 17])).
  { apply tree_ok_invariants, reachable_tree_ok, reachable_build.
    repeat constructor; unfold is_int; lia. }
  assert (E : root (bt_build [10; 20; 5; 6; 12; 30; 7; 17]) =
              Some (BNode [10] [BNode [5; 6; 7] []; BNode [12; 17; 20; 30] []]))
    by reflexivity.
  pose proof (bt_free_all_nodes _ H) as Hf. rewrite E in Hf.
  split; [exact H|]. exact (proj1 Hf).
Defined.

(** ** [bt_print] *)

(** X6.  [bt_print(root, depth)] on a tree satisfying the invariants prints
    the keys in pre-order (a node's keys, then each child's subtree in
    slot order), one [elems:] line per node, and never [<empty>]. *)
Theorem bt_print_preorder (t : bt) (r : bnode) (depth : Z) :
  bt_invariants t -> root t = Some r ->
  printed_ints (bt_print (Some r) depth) = node_keys r /\
  length (filter is_header (bt_print (Some r) depth)) = length (subtrees r) /\
  ~ In (PStr ("<empty>" ++ newline)%string) (bt_print (Some r) depth).
Proof.
  unfold bt_invariants. intros Hinv Er. rewrite Er in Hinv. destruct Hinv as [Hall _].
  apply print_node_props. intros M HM. apply (Hall M HM).
Qed.

Lemma bt_print_preorder_witness :
  let t := bt_build [10; 20; 5; 6; 12; 30; 7; 17] in
  let r := BNode [10] [BNode [5; 6; 7] []; BNode [12; 17; 20; 30] []] in
  bt_invariants t /\ root t = Some r /\
  printed_ints (bt_print (Some r) 0) = [10; 5; 6; 7; 12; 17; 20; 30].
Proof.
  cbv zeta.
  assert (H : bt_invariants (bt_build [10; 20; 5; 6; 12; 30; 7; 17])).
  { apply tree_ok_invariants, reachable_tree_ok, reachable_build.
    repeat constructor; unfold is_int; lia. }
  assert (E : root (bt_build [10; 20; 5; 6; 12; 30; 7; 17]) =
              Some (BNode [10] [BNode [5; 6; 7] []; BNode [12; 17; 20; 30] []]))
    by reflexivity.
  split; [exact H|]. split; [exact E|].
  exact (proj1 (bt_print_preorder _ _ 0 H E)).
Defined.

(** ** [bt_lookup_node]'s out-parameter *)

(** X7.  Passing a non-NULL [node] to [bt_lookup_node] does not change the
    result, which is [bt_lookup]'s.  On the empty tree [*node] is left as it
    was; otherwise [*node] is set to a node of the tree: the node holding
    the key when it is found, a leaf without it when it is not. *)
Theorem bt_lookup_node_report (t : bt) (x : Z) (v : option bnode) :
  bt_invariants t -> nodes_nonempty t ->
  fst (bt_lookup_node_at t x (Some v)) = bt_lookup t x /\
  match root t with
  | None => snd (bt_lookup_node_at t x (Some v)) = Some v
  | Some r =>
      exists N, snd (bt_lookup_node_at t x (Some v)) = Some (Some N) /\
        In N (subtrees r) /\
        (if in_dec Z.eq_dec x (bt_keys t) then In x (elems N)
         else children N = [] /\ ~ In x (elems N))
  end.
Proof.
  unfold bt_invariants, nodes_nonempty, bt_lookup_node_at, bt_lookup, bt_keys.
  destruct (root t) as [r|]; [|auto].
  intros [Hall _] Hne. split; [apply lookup_out_fst|].
  apply lookup_out_node. intros M HM.
  destruct (Hall M HM) as [H1 [H2 H3]]. auto.
Qed.

Lemma bt_lookup_node_report_witness :
  let t := bt_build [10; 20; 5; 6; 12; 30; 7; 17] in
  bt_invariants t /\ nodes_nonempty t /\
  fst (bt_lookup_node_at t 8 (Some None)) = bt_lookup t 8.
Proof.
  cbv zeta.
  assert (Hok : tree_ok (bt_build [10; 20; 5; 6; 12; 30; 7; 17])).
  { apply reachable_tree_ok, reachable_build.
    repeat constructor; unfold is_int; lia. }
  pose proof (tree_ok_invariants _ Hok) as H.
  pose proof (tree_ok_nonempty _ Hok) as Hn.
  split; [exact H|]. split; [exact Hn|].
  pose proof (bt_lookup_node_report _ 8 None H Hn) as [H1 _]. exact H1.
Defined.

(** ** Growth of the tree *)

Lemma insert_height_aux t x prev r :
  tree_ok t -> is_int x -> root t = Some r ->
  exists r', root (snd (bt_insert t x prev)) = Some r' /\
    (height r' = height r \/
     (height r' = S (height r) /\ length (elems r') = 1%nat)).
Proof.
  intros Hok Hx Er.
  destruct (in_dec Z.eq_dec x (bt_elems t)) as [Hin|Hn].
  { rewrite (bt_insert_found t x prev Hok Hin). exists r. auto. }
  destruct t as [[r0|] sz]; cbn [root] in Er; [|discriminate]. injection Er as ->.
  unfold tree_ok, bt_elems in *; cbn [root] in *.
  destruct Hok as [[h Hsh] [Hs Hi]].
  unfold bt_insert; cbn [root].
  destruct (bt_node_insert r x prev) as [[rep pv] r'] eqn:E.
  destruct (node_insert_fresh r 1 h x prev rep pv r' ltac:(lia) Hsh Hs Hn E)
    as [_ [_ [_ Hsh2]]].
  rewrite (shape_height r 1 4 h Hsh).
  destruct (Nat.leb_spec (length (elems r')) (2 * BT_FACTOR)) as [Hle|Hgt].
  - exists r'. split; [reflexivity|]. left. exact (shape_height r' 1 5 h Hsh2).
  - assert (H5 : length (elems r') = 5%nat).
    { destruct r' as [es' cs']. apply shape_ok_iff in Hsh2 as [Hb _].
      simpl in *. unfold BT_FACTOR in Hgt. lia. }
    assert (Hsh3 : shape_ok 2 5 h r' = true).
    { destruct r' as [es' cs']. apply (shape_ok_bounds 1 5); [|exact Hsh2].
      simpl in H5. lia. }
    destruct (split_shape h r' Hsh3 H5) as [HL HR].
    rewrite (bt_split_node_eq [r'] 0 r' eq_refl).
    eexists. split; [reflexivity|]. right. split; [|reflexivity].
    cbn [height firstn skipn app map list_max fold_right].
    rewrite (shape_height _ 2 4 h HL), (shape_height _ 2 4 h HR).
    simpl. lia.
Qed.

(** X8.  An insertion into a tree built by insertions leaves a root, and
    either keeps the tree's height or raises it by exactly one, in which
    case the new root holds a single key (the root was split). *)
Theorem bt_insert_height (t : bt) (x : Z) (prev : option Z) :
  reachable t -> is_int x ->
  exists r', root (snd (bt_insert t x prev)) = Some r' /\
    match root t with
    | None => height r' = 1%nat /\ elems r' = [x]
    | Some r =>
        height r' = height r \/
        (height r' = S (height r) /\ length (elems r') = 1%nat)
    end.
Proof.
  intros Hr Hx. pose proof (reachable_tree_ok t Hr) as Hok.
  destruct (root t) as [r|] eqn:Er.
  - exact (insert_height_aux t x prev r Hok Hx Er).
  - unfold bt_insert. rewrite Er. eexists. split; [reflexivity|]. auto.
Qed.

Lemma bt_insert_height_witness :
  let t := bt_build [10; 20; 5; 6; 12] in
  reachable t /\ is_int 30 /\
  exists r', root (snd (bt_insert t 30 None)) = Some r' /\
    match root t with
    | None => height r' = 1%nat /\ elems r' = [30]
    | Some r =>
        height r' = height r \/
        (height r' = S (height r) /\ length (elems r') = 1%nat)
    end.
Proof.
  cbv zeta.
  assert (H : reachable (bt_build [10; 20; 5; 6; 12]))
    by (apply reachable_build; repeat constructor; unfold is_int; lia).
  assert (Hx : is_int 30) by (unfold is_int; lia).
  split; [exact H|]. split; [exact Hx|]. exact (bt_insert_height _ 30 None H Hx).
Defined.

(** ** Cost of [bt_node_bsearch] *)

Lemma log2_half a : (2 <= a)%nat -> (S (Nat.log2 (a / 2)) <= Nat.log2 a)%nat.
Proof.
  intros Ha.
  assert (Hp : (0 < a / 2)%nat) by (apply Nat.div_str_pos; lia).
  rewrite <- (Nat.log2_double (a / 2) Hp).
  apply Nat.log2_le_mono. pose proof (Nat.Div0.mul_div_le a 2). lia.
Qed.

Lemma bsearch_loop_reads es x : forall f left right reads,
  (left < right)%nat ->
  (length (bs_reads (bsearch_loop f es x left right reads)) <=
   length reads + S (Nat.log2 (right - left)))%nat.
Proof.
  induction f as [|f IH]; intros left right reads Hlt; cbn [bsearch_loop].
  - simpl. rewrite length_app. simpl. lia.
  - pose proof (mid_bounds left right Hlt) as Hm.
    set (mid := (left + (right - left) / 2)%nat) in *.
    set (cmp := bt_default_cmp x (nth mid es 0)).
    destruct (Z.gtb_spec cmp 0) as [Hgt|Hle];
      [|destruct (Z.ltb_spec cmp 0) as [Hlt'|Hge]];
      (destruct (negb (cmp =? 0) && _)%bool eqn:Hc;
       [|simpl; rewrite length_app; simpl; lia]);
      apply andb_prop in Hc as [Hneg Hc]; apply Nat.ltb_lt in Hc.
    + eapply Nat.le_trans; [apply IH; exact Hc|].
      rewrite length_app. simpl.
      assert (Hd : (right - (mid + 1) <= (right - left) / 2)%nat).
      { unfold mid. pose proof (Nat.div_mod (right - left) 2 ltac:(lia)).
        pose proof (Nat.mod_upper_bound (right - left) 2 ltac:(lia)). lia. }
      pose proof (Nat.log2_le_mono _ _ Hd).
      pose proof (log2_half (right - left) ltac:(lia)). lia.
    + eapply Nat.le_trans; [apply IH; exact Hc|].
      rewrite length_app. simpl.
      assert (Hd : (mid - left <= (right - left) / 2)%nat) by (unfold mid; lia).
      assert (H2 : (2 <= right - left)%nat).
      { unfold mid in Hc. destruct (Nat.le_gt_cases 2 (right - left)); [auto|].
        assert (right - left = 1)%nat by lia.
        replace ((right - left) / 2)%nat with 0%nat in Hc
          by (rewrite H0; reflexivity). lia. }
      pose proof (Nat.log2_le_mono _ _ Hd).
      pose proof (log2_half (right - left) H2). lia.
    + exfalso. assert (E0 : cmp = 0) by lia. rewrite E0 in Hneg.
      discriminate.
Qed.

(** X9.  On a node holding [n >= 1] keys, [bt_node_bsearch] runs at most
    [floor(log2 n) + 1] iterations: it reads [node->elems] at most that
    many times (at most 3 times on a node of [2 * BT_FACTOR + 1 = 5]
    keys). *)
Theorem bt_node_bsearch_reads_log (n : nat) (es : list Z) (elem : Z) :
  (1 <= n)%nat -> (length (bsearch_reads n es elem) <= S (Nat.log2 n))%nat.
Proof.
  intros Hn. unfold bsearch_reads, bsearch_run.
  pose proof (bsearch_loop_reads es elem n 0 n [] ltac:(lia)) as H.
  simpl in H. rewrite Nat.sub_0_r in H. exact H.
Qed.

Lemma bt_node_bsearch_reads_log_witness :
  (1 <= 5)%nat /\ (length (bsearch_reads 5 [1; 2; 3; 4; 5]%Z 6) <= 3)%nat.
Proof.
  split; [lia|]. exact (bt_node_bsearch_reads_log 5 [1; 2; 3; 4; 5] 6 ltac:(lia)).
Defined.
